(** * pkgwatcher: watching Go packages and their dependencies

    A shallow embedding of [pkgwatcher.go] and the properties of its
    package registry, directory-watch installer, event attribution and
    lifecycle.

    The Go program talks to three collaborators that are not part of the
    repository: the package resolver ([build.Import]), the filesystem
    notifier ([fsnotify]) and the standard library's path functions and
    directory walker ([path/filepath]).  The resolver, the notifier and the
    directory tree are parameters of the model ([Env]); the lexical path
    functions are written out, following the algorithms of [path/filepath]
    on a Unix system (separator [/], no volume names). *)

From Stdlib Require Import Ascii String.
From stdpp Require Import base option list strings gmap fin_maps.

#[local] Set Warnings "-clear-no-such-hyp".

Local Open Scope string_scope.
Local Open Scope nat_scope.
Local Open Scope list_scope.
Local Open Scope stdpp_scope.

(** ** Lexical path functions of [path/filepath] *)

Module filepath.

Definition Separator : ascii := "/"%char.

Definition IsPathSeparator (c : ascii) : bool := Ascii.eqb c Separator.

(** [strings.Split(s, "/")]: the elements between separators; never empty. *)
Fixpoint elements (s : string) : list string :=
  match s with
  | EmptyString => [ EmptyString ]
  | String c s' =>
      if IsPathSeparator c then EmptyString :: elements s'
      else match elements s' with
           | e :: es => String c e :: es
           | [] => [ String c EmptyString ]
           end
  end.

(** [strings.Join(l, "/")]. *)
Fixpoint joinElements (l : list string) : string :=
  match l with
  | [] => EmptyString
  | [ e ] => e
  | e :: es => e +:+ String Separator (joinElements es)
  end.

(** One step of [Clean]'s scan: [out] is the stack of elements written so
    far, innermost first.  An empty element and [.] are dropped; [..]
    removes the last real element, is dropped at the root of a rooted
    path, and is kept otherwise; everything else is copied. *)
Definition cleanStep (rooted : bool) (out : list string) (e : string)
  : list string :=
  if decide (e = "") then out
  else if decide (e = ".") then out
  else if decide (e = "..") then
    match out with
    | top :: rest =>
        if decide (top = "..") then e :: out else rest
    | [] => if rooted then [] else [ e ]
    end
  else e :: out.

Definition isRooted (path : string) : bool :=
  match path with
  | String c _ => IsPathSeparator c
  | EmptyString => false
  end.

(** [filepath.Clean]. *)
Definition Clean (path : string) : string :=
  let rooted := isRooted path in
  let out := rev (foldl (cleanStep rooted) [] (elements path)) in
  if rooted then String Separator (joinElements out)
  else match out with
       | [] => "."
       | _ => joinElements out
       end.

(** [path[:i+1]] where [i] is the index of the last separator of [path]
    ([-1] when there is none). *)
Fixpoint hasSeparator (s : string) : bool :=
  match s with
  | EmptyString => false
  | String c s' => IsPathSeparator c || hasSeparator s'
  end.

Fixpoint throughLastSeparator (s : string) : string :=
  match s with
  | EmptyString => EmptyString
  | String c s' =>
      if IsPathSeparator c || hasSeparator s'
      then String c (throughLastSeparator s')
      else EmptyString
  end.

(** [filepath.Dir]. *)
Definition Dir (path : string) : string :=
  Clean (throughLastSeparator path).

(** [path[i+1:]] for the last separator index [i]. *)
Fixpoint afterLastSeparator (s : string) : string :=
  match s with
  | EmptyString => EmptyString
  | String c s' =>
      if hasSeparator s then afterLastSeparator s' else s
  end.

(** Strip trailing separators. *)
Fixpoint stripTrailing (s : string) : string :=
  match s with
  | EmptyString => EmptyString
  | String c s' =>
      match stripTrailing s' with
      | EmptyString => if IsPathSeparator c then EmptyString else String c EmptyString
      | r => String c r
      end
  end.

(** [filepath.Base]. *)
Definition Base (path : string) : string :=
  if decide (path = "") then "."
  else
    let p := afterLastSeparator (stripTrailing path) in
    if decide (p = "") then String Separator EmptyString else p.

(** [filepath.Join] of two elements. *)
Definition Join (dir name : string) : string :=
  if decide (dir = "") then
    if decide (name = "") then "" else Clean name
  else Clean (dir +:+ String Separator name).

End filepath.

(** ** Collaborators *)

(** [go/build]: the package descriptor the resolver returns. *)
Module build.

Record Package := {
  ImportPath : string;
  Dir : string;
  Imports : list string
}.

#[global] Instance Package_eq_dec : EqDecision Package.
Proof. solve_decision. Defined.

End build.

(** [os.FileInfo], as far as the program looks at it. *)
Record FileInfo := { Name : string; IsDir : bool }.

(** The directory tree found at a path.  [Missing] is an entry whose
    [Lstat] fails; a [Directory] carries the error of reading its entries,
    if any, and its entries. *)
#[local] Unset Elimination Schemes.
Inductive FileTree :=
| Missing (name : string) (err : string)
| File (name : string)
| Directory (name : string) (readErr : option string) (entries : list FileTree).
#[local] Set Elimination Schemes.

Definition entryName (t : FileTree) : string :=
  match t with
  | Missing n _ | File n | Directory n _ _ => n
  end.

Definition isFile (t : FileTree) : bool :=
  match t with File _ => true | _ => false end.

(** What [filepath.Walk] hands to its callback: an entry with its info, or
    an error, with the info when the entry could be examined. *)
Inductive WalkArg :=
| Entry (info : FileInfo)
| EntryErr (info : option FileInfo) (err : string).

Inductive WalkError :=
| SkipDir
| OtherError (msg : string).

(** [filepath.Walk] of the Go standard library, over the tree found at
    [root]: the callback sees a directory before its entries, with the
    error of reading them if there is one; an error from the callback ends
    the walk, except [SkipDir] from a directory, which only skips its
    entries. *)
Section Walk.
Context {St : Type}.
Variable walkFn : string -> WalkArg -> St -> option WalkError * St.

(** The loop of [walk] over the entries of the directory [path]. *)
Section Entries.
Variable walkOne : string -> FileTree -> St -> option WalkError * St.
Variable path : string.

Fixpoint walkEntries (es : list FileTree) (s : St)
  : option WalkError * St :=
  match es with
  | [] => (None, s)
  | e :: es' =>
      let '(r, s') := walkOne (filepath.Join path (entryName e)) e s in
      match r with
      | None => walkEntries es' s'
      | Some SkipDir =>
          if isFile e then (r, s') else walkEntries es' s'
      | Some (OtherError _) => (r, s')
      end
  end.
End Entries.

Fixpoint walk (path : string) (t : FileTree) (s : St) {struct t}
  : option WalkError * St :=
  match t with
  | Missing _ err => walkFn path (EntryErr None err) s
  | File name => walkFn path (Entry {| Name := name; IsDir := false |}) s
  | Directory name readErr entries =>
      let info := {| Name := name; IsDir := true |} in
      match readErr with
      | Some err => walkFn path (EntryErr (Some info) err) s
      | None =>
          let '(err1, s1) := walkFn path (Entry info) s in
          match err1 with
          | Some _ => (err1, s1)
          | None => walkEntries walk path entries s1
          end
      end
  end.

Definition Walk (root : string) (t : FileTree) (s : St)
  : option WalkError * St :=
  let '(r, s') := walk root t s in
  match r with
  | Some SkipDir => (None, s')
  | _ => (r, s')
  end.

(** The same callback, also recording each of its invocations. *)
Definition traced (path : string) (a : WalkArg)
  (s : St * list (string * WalkArg))
  : option WalkError * (St * list (string * WalkArg)) :=
  let '(r, s') := walkFn path a (fst s) in
  (r, (s', snd s ++ [ (path, a) ])).

End Walk.

(** [fsnotify.Watcher]: the directories handed to [Watch], in call order,
    and whether [Close] was called. *)
Module fsnotify.

Record FileEvent := { EventName : string; EventOp : nat }.

Record Watcher := { watches : list string; closed : bool }.

Definition opened : Watcher := {| watches := []; closed := false |}.

End fsnotify.

(** The world outside the program.  [rangePackages] is the order in which
    a [range] over the registry yields its packages (Go leaves it
    unspecified). *)
Record Env := {
  build_Import : string -> string -> build.Package + string;
  lstatTree : string -> FileTree;
  fsnotify_Watch : string -> option string;
  rangePackages : gmap string build.Package -> list build.Package
}.

(** ** The watcher *)

Record Event := {
  FileEvent : fsnotify.FileEvent;
  Package : option build.Package
}.

(** A channel that was never made is [nilChan]. *)
Inductive chan := nilChan | madeChan.

(** [Event] and [Error] are made channels, kept as the values sent over
    them so far.  [importCalls] is not a field of the Go struct: it records
    the import paths passed to [build.Import], in call order. *)
Record Watcher := {
  Packages : gmap string build.Package;
  DirPackages : gmap string build.Package;
  Event_ : list Event;
  Error : list string;
  workingDirectory : string;
  watchedDirectories : gmap string bool;
  fsnotify_ : fsnotify.Watcher;
  done : chan;
  importCalls : list string
}.

Definition sendError (msg : string) (w : Watcher) : Watcher :=
  {| Packages := Packages w; DirPackages := DirPackages w;
     Event_ := Event_ w; Error := Error w ++ [ msg ];
     workingDirectory := workingDirectory w;
     watchedDirectories := watchedDirectories w;
     fsnotify_ := fsnotify_ w; done := done w;
     importCalls := importCalls w |}.

Definition notifierWatch (path : string) (w : Watcher) : Watcher :=
  {| Packages := Packages w; DirPackages := DirPackages w;
     Event_ := Event_ w; Error := Error w;
     workingDirectory := workingDirectory w;
     watchedDirectories := watchedDirectories w;
     fsnotify_ := {| fsnotify.watches := fsnotify.watches (fsnotify_ w) ++ [ path ];
                     fsnotify.closed := fsnotify.closed (fsnotify_ w) |};
     done := done w;
     importCalls := importCalls w |}.

Definition markWatched (path : string) (w : Watcher) : Watcher :=
  {| Packages := Packages w; DirPackages := DirPackages w;
     Event_ := Event_ w; Error := Error w;
     workingDirectory := workingDirectory w;
     watchedDirectories := <[ path := true ]> (watchedDirectories w);
     fsnotify_ := fsnotify_ w; done := done w;
     importCalls := importCalls w |}.

Definition register (pkg : build.Package) (w : Watcher) : Watcher :=
  {| Packages := <[ build.ImportPath pkg := pkg ]> (Packages w);
     DirPackages := <[ build.Dir pkg := pkg ]> (DirPackages w);
     Event_ := Event_ w; Error := Error w;
     workingDirectory := workingDirectory w;
     watchedDirectories := watchedDirectories w;
     fsnotify_ := fsnotify_ w; done := done w;
     importCalls := importCalls w |}.

Definition noteImport (importPath : string) (w : Watcher) : Watcher :=
  {| Packages := Packages w; DirPackages := DirPackages w;
     Event_ := Event_ w; Error := Error w;
     workingDirectory := workingDirectory w;
     watchedDirectories := watchedDirectories w;
     fsnotify_ := fsnotify_ w; done := done w;
     importCalls := importCalls w ++ [ importPath ] |}.

Definition publish (ev : Event) (w : Watcher) : Watcher :=
  {| Packages := Packages w; DirPackages := DirPackages w;
     Event_ := Event_ w ++ [ ev ]; Error := Error w;
     workingDirectory := workingDirectory w;
     watchedDirectories := watchedDirectories w;
     fsnotify_ := fsnotify_ w; done := done w;
     importCalls := importCalls w |}.

Definition closeNotifier (w : Watcher) : Watcher :=
  {| Packages := Packages w; DirPackages := DirPackages w;
     Event_ := Event_ w; Error := Error w;
     workingDirectory := workingDirectory w;
     watchedDirectories := watchedDirectories w;
     fsnotify_ := {| fsnotify.watches := fsnotify.watches (fsnotify_ w);
                     fsnotify.closed := true |};
     done := done w;
     importCalls := importCalls w |}.

(** [w.watchedDirectories[dir]]: a missing key reads as [false]. *)
Definition watched (w : Watcher) (dir : string) : bool :=
  default false (watchedDirectories w !! dir).

(** [filepath.Base(info.Name())[0] == '.'].  [Base] never returns the empty
    string, so the index is in range. *)
Definition hidden (info : FileInfo) : bool :=
  match filepath.Base (Name info) with
  | String c _ => Ascii.eqb c "."%char
  | EmptyString => false
  end.

(** The tree without the entries of its hidden directories. *)
Fixpoint prune (t : FileTree) : FileTree :=
  match t with
  | Directory name readErr entries =>
      if hidden {| Name := name; IsDir := true |}
      then Directory name readErr []
      else Directory name readErr (map prune entries)
  | _ => t
  end.

Section Program.
Variable E : Env.

(** The callback [WatchDirectory] passes to [filepath.Walk]. *)
Definition visit (dir path : string) (a : WalkArg) (w : Watcher)
  : option WalkError * Watcher :=
  match a with
  | EntryErr _ err =>
      (None,
       sendError ("Got error when walking directory " +:+ dir +:+
                  " with entry " +:+ path +:+ " and error " +:+ err) w)
  | Entry info =>
      if negb (IsDir info) then (None, w)
      else if hidden info then (Some SkipDir, w)
      else if watched w path then (None, w)
      else
        let w1 := notifierWatch path w in
        let w2 :=
          match fsnotify_Watch E path with
          | Some err =>
              sendError ("Error watching " +:+ path +:+ ": " +:+ err) w1
          | None => w1
          end in
        (None, markWatched path w2)
  end.

Definition WatchDirectory (dir : string) (w : Watcher) : Watcher :=
  if watched w dir then w
  else snd (Walk (visit dir) dir (lstatTree E dir) w).

(** [WatchImportPath] calls itself for every import of a package it has
    just registered; [fuel] bounds the depth of these calls, and [None]
    means the bound was reached. *)
Fixpoint WatchImportPath (fuel : nat) (importPath : string) (w : Watcher)
  : option Watcher :=
  match fuel with
  | O => None
  | S fuel' =>
      if decide (importPath = "C") then Some w
      else match Packages w !! importPath with
      | Some _ => Some w
      | None =>
          let w0 := noteImport importPath w in
          match build_Import E importPath (workingDirectory w) with
          | inr err =>
              Some (sendError ("Failed to find import path " +:+ importPath
                               +:+ " with error " +:+ err) w0)
          | inl pkg =>
              w2 ← foldl (fun acc path =>
                            acc ≫= WatchImportPath fuel' path)
                         (Some (register pkg w0)) (build.Imports pkg);
              Some (foldl (fun acc p => WatchDirectory (build.Dir p) acc)
                          w2 (rangePackages E (Packages w2)))
          end
      end
  end.

(** The loop of the goroutine [NewWatcher] starts over the initial import
    paths. *)
Definition watchAll (fuel : nat) (importPaths : list string) (w : Watcher)
  : option Watcher :=
  foldl (fun acc p => acc ≫= WatchImportPath fuel p) (Some w) importPaths.

End Program.

(** [findPackage]: the loop runs on [file], [Dir(file)], ... until it
    finds a registered directory or reaches ["."] or ["/"].  [None] means
    [fuel] iterations were not enough. *)
Fixpoint findPackageLoop (fuel : nat) (w : Watcher) (file : string)
  : option (option build.Package) :=
  match fuel with
  | O => None
  | S fuel' =>
      if decide (file ≠ "." ∧ file ≠ "/") then
        match DirPackages w !! file with
        | Some pkg => Some (Some pkg)
        | None => findPackageLoop fuel' w (filepath.Dir file)
        end
      else Some None
  end.

Definition findPackage (w : Watcher) (file : string) : option build.Package :=
  default None (findPackageLoop (2 + String.length file) w file).

(** ** Construction *)

(** The process environment [NewWatcher] reads. *)
Record OS := {
  os_Getwd : string + string;
  fsnotify_NewWatcher : fsnotify.Watcher + string
}.

(** The watcher [NewWatcher] builds: the composite literal sets the
    working directory, the three maps and the [Event] channel, and not
    [done]; the notifier and its [Error] channel are assigned right
    after. *)
Definition initial (wd : string) (n : fsnotify.Watcher) : Watcher :=
  {| Packages := ∅; DirPackages := ∅;
     Event_ := []; Error := [];
     workingDirectory := wd;
     watchedDirectories := ∅;
     fsnotify_ := n; done := nilChan;
     importCalls := [] |}.

(** [NewWatcher] returns the watcher and the error.  The two goroutines it
    starts are [proxyEvent] and [watchAll] over [importPaths]. *)
Definition NewWatcher (os : OS) (importPaths : list string) (wd : string)
  : option Watcher * option string :=
  let wd :=
    if decide (wd = "") then
      match os_Getwd os with
      | inl cwd => cwd
      | inr _ => "/"
      end
    else wd in
  match fsnotify_NewWatcher os with
  | inr err => (None, Some err)
  | inl n => (Some (initial wd n), None)
  end.

(** ** The candidates of [findPackage] *)

(** The values the loop variable [file] takes while the loop condition
    holds: [file], [Dir(file)], [Dir(Dir(file))], ... *)
Fixpoint ancestryLoop (fuel : nat) (file : string) : list string :=
  match fuel with
  | O => []
  | S fuel' =>
      if decide (file ≠ "." ∧ file ≠ "/")
      then file :: ancestryLoop fuel' (filepath.Dir file)
      else []
  end.

Definition ancestry (file : string) : list string :=
  ancestryLoop (2 + String.length file) file.

(** The package of the first directory of [dirs] that is in the index. *)
Fixpoint firstRegistered (idx : gmap string build.Package)
  (dirs : list string) : option build.Package :=
  match dirs with
  | [] => None
  | d :: dirs' =>
      match idx !! d with
      | Some pkg => Some pkg
      | None => firstRegistered idx dirs'
      end
  end.

(** ** Vocabulary of the statements *)

Module paths.
Import filepath.

(** The length a list of elements takes once joined, counting one
    separator per element. *)
Definition span (l : list string) : nat :=
  foldr (fun e n => S (String.length e + n)) 0 l.

Fixpoint endsWithSeparator (s : string) : bool :=
  match s with
  | EmptyString => false
  | String c EmptyString => IsPathSeparator c
  | String _ s' => endsWithSeparator s'
  end.

(** Elements of a clean path: not empty, not [.] or [..], no separator
    inside. *)
Definition normalElement (e : string) : Prop :=
  e ≠ "" ∧ e ≠ "." ∧ e ≠ ".." ∧ hasSeparator e = false.

#[global] Instance normalElement_dec e : Decision (normalElement e).
Proof. unfold normalElement. apply _. Defined.

(** The absolute path with the given elements; [absPath []] is the root. *)
Definition absPath (cs : list string) : string :=
  String Separator (joinElements cs).
(** The loop condition of [findPackage] fails on [file]. *)
Definition boundary (file : string) : Prop := ¬ (file ≠ "." ∧ file ≠ "/").

(** The ancestors of a clean absolute path, itself included and the root
    excluded, nearest first. *)
Definition prefixes (cs : list string) : list string :=
  (fun k => absPath (take k cs)) <$> rev (seq 1 (length cs)).

End paths.

(** ** Sequences of [WatchDirectory] calls *)

Definition notifierWatches (w : Watcher) : list string :=
  fsnotify.watches (fsnotify_ w).

(** Calls of [WatchDirectory], each in the world it is made in. *)
Definition watchDirectories (calls : list (Env * string)) (w : Watcher)
  : Watcher :=
  foldl (fun acc c => WatchDirectory (fst c) (snd c) acc) w calls.

(** From [w] to [w']: the notifier was handed [new], each directory once
    and none that [w] had marked; every one is marked in [w'], and no mark
    was removed. *)
Definition extends (w w' : Watcher) : Prop :=
  ∃ new, notifierWatches w' = notifierWatches w ++ new ∧
         NoDup new ∧
         (∀ p, p ∈ new → watched w p = false ∧ watched w' p = true) ∧
         (∀ p, watched w p = true → watched w' p = true).

(** What a traced walk has done since [(w0, log0)]: every directory it
    handed to the notifier was seen by the callback as a directory that
    is not hidden. *)
Definition tracedFrom (w0 : Watcher) (log0 : list (string * WalkArg))
  (s : Watcher * list (string * WalkArg)) : Prop :=
  ∃ newlog new,
    snd s = log0 ++ newlog ∧
    notifierWatches (fst s) = notifierWatches w0 ++ new ∧
    ∀ p, p ∈ new →
         ∃ info, (p, Entry info) ∈ newlog ∧
                 IsDir info = true ∧ hidden info = false.

(** What [WatchDirectory] leaves alone. *)
Definition sameRegistry (w w' : Watcher) : Prop :=
  Packages w' = Packages w ∧ DirPackages w' = DirPackages w ∧
  importCalls w' = importCalls w ∧
  workingDirectory w' = workingDirectory w ∧
  done w' = done w ∧ Event_ w' = Event_ w ∧
  fsnotify.closed (fsnotify_ w') = fsnotify.closed (fsnotify_ w).

(** ** Runs of [WatchImportPath] *)

(** [build.Import] finds a package for [q], asked from the watcher's
    working directory. *)
Definition resolves (E : Env) (w : Watcher) (q : string) : Prop :=
  ∃ pkg, build_Import E q (workingDirectory w) = inl pkg.



(** The directory index is keyed by the directories of its packages. *)
Definition indexedByDir (w : Watcher) : Prop :=
  ∀ d pkg, DirPackages w !! d = Some pkg → build.Dir pkg = d.


(** ** Lifecycle: [proxyEvent], [Close] and the goroutines *)

(** Where the goroutine running [proxyEvent] stands: blocked in its
    [select], blocked sending an enriched event on [w.Event], or
    returned. *)
Inductive proxyState :=
| Selecting
| Sending (ev : Event)
| ProxyReturned.

(** Where a call of [Close] stands: not made yet, blocked in
    [w.done <- true], about to call [w.fsnotify.Close()], or returned with
    the notifier's error. *)
Inductive closeState :=
| NotCalled
| SendingDone
| ClosingNotifier
| Returned (err : option string).

Record System := {
  watcher : Watcher;
  proxy : proxyState;
  closer : closeState
}.

(** The steps of the running system.  Channels are unbuffered: a send
    completes together with the matching receive, and neither a send nor a
    receive on a nil channel ever completes.  [closeErr] is what the
    notifier's [Close] will return. *)
Inductive step (closeErr : option string) : System → System → Prop :=
| proxyEvent_receives w c ev :
    (* [case ev := <-w.fsnotify.Event]: the notifier delivers [ev] *)
    step closeErr
      {| watcher := w; proxy := Selecting; closer := c |}
      {| watcher := w;
         proxy := Sending {| FileEvent := ev;
                             Package := findPackage w (fsnotify.EventName ev) |};
         closer := c |}
| proxyEvent_publishes w c ev :
    (* [w.Event <- &Event{...}]: the consumer receives *)
    step closeErr
      {| watcher := w; proxy := Sending ev; closer := c |}
      {| watcher := publish ev w; proxy := Selecting; closer := c |}
| WatchImportPath_runs w w' px c E fuel importPath :
    (* the goroutine over the import paths, or a caller, runs
       [WatchImportPath] *)
    WatchImportPath E fuel importPath w = Some w' →
    step closeErr
      {| watcher := w; proxy := px; closer := c |}
      {| watcher := w'; proxy := px; closer := c |}
| Close_called w px :
    (* [Close] is called and reaches [w.done <- true] *)
    step closeErr
      {| watcher := w; proxy := px; closer := NotCalled |}
      {| watcher := w; proxy := px; closer := SendingDone |}
| Close_signals_done w :
    (* [w.done <- true] meets [case <-w.done]; [proxyEvent] returns *)
    done w = madeChan →
    step closeErr
      {| watcher := w; proxy := Selecting; closer := SendingDone |}
      {| watcher := w; proxy := ProxyReturned; closer := ClosingNotifier |}
| Close_returns w px :
    (* [return w.fsnotify.Close()] *)
    step closeErr
      {| watcher := w; proxy := px; closer := ClosingNotifier |}
      {| watcher := closeNotifier w; proxy := px;
         closer := Returned closeErr |}.

(** The system right after [NewWatcher] returned [w]. *)
Definition started (w : Watcher) : System :=
  {| watcher := w; proxy := Selecting; closer := NotCalled |}.

(** What holds of the running system as long as [done] is nil. *)
Definition blocked (closed0 : bool) (s : System) : Prop :=
  done (watcher s) = nilChan ∧
  fsnotify.closed (fsnotify_ (watcher s)) = closed0 ∧
  (closer s = NotCalled ∨ closer s = SendingDone) ∧
  proxy s ≠ ProxyReturned.

(** Once [Close] is past its send, [proxyEvent] has returned. *)
Definition stopped (s : System) : Prop :=
  closer s = ClosingNotifier ∨ (∃ err, closer s = Returned err) →
  proxy s = ProxyReturned.

(** ** What a walk registers *)

(** The directories of the tree at [path] that the walk hands to the
    callback without an error and that are not hidden, in walk order: a
    directory is among them when it is not hidden, its entries can be
    read, and every directory between [path] and it is so too.  A
    directory that cannot be read is not among them itself (the walk hands
    it to the callback with the error, which reports it and returns), nor
    is anything below it. *)
Fixpoint visibleDirs (path : string) (t : FileTree) : list string :=
  match t with
  | Directory name None entries =>
      if hidden {| Name := name; IsDir := true |} then []
      else path ::
           concat (map (fun e =>
                          visibleDirs (filepath.Join path (entryName e)) e)
                       entries)
  | _ => []
  end.

(** [w.watchedDirectories[p] = true] for every [p] of [paths]. *)
Definition markAll (paths : list string) (m : gmap string bool)
  : gmap string bool :=
  foldl (fun acc p => <[ p := true ]> acc) m paths.

(** From [w] to [w'] the notifier was handed exactly [new], and exactly
    these were marked. *)
Definition registers (w w' : Watcher) (new : list string) : Prop :=
  notifierWatches w' = notifierWatches w ++ new ∧
  watchedDirectories w' = markAll new (watchedDirectories w).

(** What the walk of a tree does to a watcher. *)
Definition walkEffect (dirs : list string) (s s' : Watcher) : Prop :=
  ∃ new, registers s s' new ∧
         ∀ p, p ∈ new ↔ p ∈ dirs ∧ watched s p = false.

(** The error [filepath.Walk] reports for the root itself: [Lstat] failed
    or the directory cannot be read. *)
Definition rootError (t : FileTree) : option string :=
  match t with
  | Missing _ err => Some err
  | Directory _ (Some err) _ => Some err
  | _ => None
  end.

(** ** The registry and the import graph *)

(** The resolver returns every package under the import path it was asked
    for. *)
Definition canonical (E : Env) : Prop :=
  ∀ q wd pkg, build_Import E q wd = inl pkg → build.ImportPath pkg = q.

(** Both indices are keyed by the field they are named after, every
    package of the import-path index has its directory in the directory
    index, and every indexed package was returned by the resolver. *)
Definition registryInv (E : Env) (w : Watcher) : Prop :=
  (∀ k pkg, Packages w !! k = Some pkg → build.ImportPath pkg = k) ∧
  indexedByDir w ∧
  (∀ k pkg, Packages w !! k = Some pkg →
            is_Some (DirPackages w !! build.Dir pkg)) ∧
  (∀ k pkg, Packages w !! k = Some pkg ∨ DirPackages w !! k = Some pkg →
            ∃ q, build_Import E q (workingDirectory w) = inl pkg).

(** [a] is resolved to a package that imports [b]. *)
Definition importEdge (E : Env) (wd : string) (a b : string) : Prop :=
  a ≠ "C" ∧ ∃ pkg, build_Import E a wd = inl pkg ∧ b ∈ build.Imports pkg.

(** [q] is a package found by following imports from [p]. *)
Definition reaches (E : Env) (wd : string) (p q : string) : Prop :=
  rtc (importEdge E wd) p q ∧ q ≠ "C" ∧
  ∃ pkg, build_Import E q wd = inl pkg.

(** Every entry of the registry is what the resolver returns for its
    key. *)
Definition resolved (E : Env) (w : Watcher) : Prop :=
  ∀ q pkg, Packages w !! q = Some pkg →
           q ≠ "C" ∧ build_Import E q (workingDirectory w) = inl pkg.

(** The imports of [pkg] that the resolver finds are registered. *)
Definition importsRegistered (E : Env) (w : Watcher) (pkg : build.Package)
  : Prop :=
  ∀ i, i ∈ build.Imports pkg → i ≠ "C" → resolves E w i →
       i ∈ dom (Packages w).

(** The registry is closed under imports. *)
Definition importsClosed (E : Env) (w : Watcher) : Prop :=
  ∀ q pkg, Packages w !! q = Some pkg → importsRegistered E w pkg.

(** From [w] to [w'], started on the import paths [roots]: no entry of
    the registry changed; every new entry is what the resolver returns for
    its key, is found by following imports from one of [roots], and has
    its imports registered; and every one of [roots] that the resolver
    finds is registered. *)
Definition addedFrom (E : Env) (roots : list string) (w w' : Watcher)
  : Prop :=
  workingDirectory w' = workingDirectory w ∧
  (∀ q pkg, Packages w !! q = Some pkg → Packages w' !! q = Some pkg) ∧
  (∀ q pkg, Packages w' !! q = Some pkg →
            Packages w !! q = Some pkg ∨
            (q ≠ "C" ∧
             build_Import E q (workingDirectory w) = inl pkg ∧
             (∃ r, r ∈ roots ∧ rtc (importEdge E (workingDirectory w)) r q) ∧
             importsRegistered E w' pkg)) ∧
  (∀ r, r ∈ roots → r ≠ "C" → resolves E w r → r ∈ dom (Packages w')).

(** ** A file system that stays as it is *)

(** The tree found at an entry of a directory that is walked into is that
    entry. *)
Definition consistent (E : Env) : Prop :=
  ∀ dir name entries e,
    lstatTree E dir = Directory name None entries →
    hidden {| Name := name; IsDir := true |} = false →
    e ∈ entries →
    lstatTree E (filepath.Join dir (entryName e)) = e.

(** A [range] over the registry yields every package in it. *)
Definition rangeComplete (E : Env) : Prop :=
  ∀ (m : gmap string build.Package) k pkg,
    m !! k = Some pkg → pkg ∈ rangePackages E m.

(** Below every marked directory, every directory that a walk would
    register (not hidden, readable, below no hidden or unreadable
    directory) is marked. *)
Definition covered (E : Env) (w : Watcher) : Prop :=
  ∀ dir p, watched w dir = true →
           p ∈ visibleDirs dir (lstatTree E dir) → watched w p = true.

(** The directories of every registered package that a walk would
    register (not hidden, readable, below no hidden or unreadable
    directory) are marked. *)
Definition packagesWatched (E : Env) (w : Watcher) : Prop :=
  ∀ q pkg p, Packages w !! q = Some pkg →
             p ∈ visibleDirs (build.Dir pkg) (lstatTree E (build.Dir pkg)) →
             watched w p = true.

(** The ancestors of a clean relative path, itself included, nearest
    first; the current directory is not one of them. *)
Definition relPrefixes (cs : list string) : list string :=
  (fun k => filepath.joinElements (take k cs)) <$> rev (seq 1 (length cs)).

(** ** Failures and the error channel *)

(** From [w] to [w']: every directory the notifier refused and every
    import path the resolver failed on was reported on the error
    channel. *)
Definition failuresReported (E : Env) (w w' : Watcher) : Prop :=
  workingDirectory w' = workingDirectory w ∧
  ∃ dirs calls errs,
    notifierWatches w' = notifierWatches w ++ dirs ∧
    importCalls w' = importCalls w ++ calls ∧
    Error w' = Error w ++ errs ∧
    (∀ p err, p ∈ dirs → fsnotify_Watch E p = Some err →
              ("Error watching " +:+ p +:+ ": " +:+ err) ∈ errs) ∧
    (∀ q err, q ∈ calls →
              build_Import E q (workingDirectory w) = inr err →
              ("Failed to find import path " +:+ q +:+ " with error "
               +:+ err) ∈ errs).

(** ** Attribution of published events *)

(** The package an event carries, if any, has the event's path or one of
    its ancestors as its directory. *)
Definition attributed (ev : Event) : Prop :=
  ∀ pkg, Package ev = Some pkg →
         build.Dir pkg ∈ ancestry (fsnotify.EventName (FileEvent ev)).

(** What holds of every event in the running system. *)
Definition attributing (s : System) : Prop :=
  indexedByDir (watcher s) ∧
  Forall attributed (Event_ (watcher s)) ∧
  ∀ ev, proxy s = Sending ev → attributed ev.

(** What holds of [Close] once it is past its send. *)
Definition closing (closeErr : option string) (w0 : Watcher) (s : System)
  : Prop :=
  done (watcher s) = done w0 ∧
  (closer s = ClosingNotifier ∨ (∃ err, closer s = Returned err) →
   done w0 = madeChan) ∧
  ∀ err, closer s = Returned err →
         err = closeErr ∧ fsnotify.closed (fsnotify_ (watcher s)) = true.

(** ** The earlier version of the program *)

(** The earlier [pkgwatcher.go]: no directory index, no proxy (its
    [Event] channel is the notifier's own, so the program sends nothing
    on it), and a failed [Watch] is reported as the notifier's error
    itself.  [importCalls] is, as above, not a field of the Go struct. *)
Module legacy.

Record Watcher := {
  Packages : gmap string build.Package;
  Error : list string;
  workingDirectory : string;
  watchedDirectories : gmap string bool;
  fsnotify_ : fsnotify.Watcher;
  importCalls : list string
}.

Definition sendError (msg : string) (w : Watcher) : Watcher :=
  {| Packages := Packages w; Error := Error w ++ [ msg ];
     workingDirectory := workingDirectory w;
     watchedDirectories := watchedDirectories w;
     fsnotify_ := fsnotify_ w; importCalls := importCalls w |}.

Definition notifierWatch (path : string) (w : Watcher) : Watcher :=
  {| Packages := Packages w; Error := Error w;
     workingDirectory := workingDirectory w;
     watchedDirectories := watchedDirectories w;
     fsnotify_ :=
       {| fsnotify.watches := fsnotify.watches (fsnotify_ w) ++ [ path ];
          fsnotify.closed := fsnotify.closed (fsnotify_ w) |};
     importCalls := importCalls w |}.

Definition markWatched (path : string) (w : Watcher) : Watcher :=
  {| Packages := Packages w; Error := Error w;
     workingDirectory := workingDirectory w;
     watchedDirectories := <[ path := true ]> (watchedDirectories w);
     fsnotify_ := fsnotify_ w; importCalls := importCalls w |}.

Definition register (pkg : build.Package) (w : Watcher) : Watcher :=
  {| Packages := <[ build.ImportPath pkg := pkg ]> (Packages w);
     Error := Error w;
     workingDirectory := workingDirectory w;
     watchedDirectories := watchedDirectories w;
     fsnotify_ := fsnotify_ w; importCalls := importCalls w |}.

Definition noteImport (importPath : string) (w : Watcher) : Watcher :=
  {| Packages := Packages w; Error := Error w;
     workingDirectory := workingDirectory w;
     watchedDirectories := watchedDirectories w;
     fsnotify_ := fsnotify_ w;
     importCalls := importCalls w ++ [ importPath ] |}.

Definition watched (w : Watcher) (dir : string) : bool :=
  default false (watchedDirectories w !! dir).

Section Program.
Variable E : Env.

Definition visit (dir path : string) (a : WalkArg) (w : Watcher)
  : option WalkError * Watcher :=
  match a with
  | EntryErr _ err =>
      (None,
       sendError ("Got error when walking directory " +:+ dir +:+
                  " with entry " +:+ path +:+ " and error " +:+ err) w)
  | Entry info =>
      if negb (IsDir info) then (None, w)
      else if hidden info then (Some SkipDir, w)
      else if watched w path then (None, w)
      else
        let w1 := notifierWatch path w in
        let w2 :=
          match fsnotify_Watch E path with
          | Some err => sendError err w1
          | None => w1
          end in
        (None, markWatched path w2)
  end.

Definition WatchDirectory (dir : string) (w : Watcher) : Watcher :=
  if watched w dir then w
  else snd (Walk (visit dir) dir (lstatTree E dir) w).

Fixpoint WatchImportPath (fuel : nat) (importPath : string) (w : Watcher)
  : option Watcher :=
  match fuel with
  | O => None
  | S fuel' =>
      if decide (importPath = "C") then Some w
      else match Packages w !! importPath with
      | Some _ => Some w
      | None =>
          let w0 := noteImport importPath w in
          match build_Import E importPath (workingDirectory w) with
          | inr err =>
              Some (sendError ("Failed to find import path " +:+ importPath
                               +:+ " with error " +:+ err) w0)
          | inl pkg =>
              w2 ← foldl (fun acc path =>
                            acc ≫= WatchImportPath fuel' path)
                         (Some (register pkg w0)) (build.Imports pkg);
              Some (foldl (fun acc p => WatchDirectory (build.Dir p) acc)
                          w2 (rangePackages E (Packages w2)))
          end
      end
  end.

Definition watchAll (fuel : nat) (importPaths : list string) (w : Watcher)
  : option Watcher :=
  foldl (fun acc p => acc ≫= WatchImportPath fuel p) (Some w) importPaths.

End Program.

Definition initial (wd : string) (n : fsnotify.Watcher) : Watcher :=
  {| Packages := ∅; Error := [];
     workingDirectory := wd;
     watchedDirectories := ∅;
     fsnotify_ := n; importCalls := [] |}.

Definition NewWatcher (os : OS) (importPaths : list string) (wd : string)
  : option Watcher * option string :=
  let wd :=
    if decide (wd = "") then
      match os_Getwd os with
      | inl cwd => cwd
      | inr _ => "/"
      end
    else wd in
  match fsnotify_NewWatcher os with
  | inr err => (None, Some err)
  | inl n => (Some (initial wd n), None)
  end.

End legacy.

(** An error of the earlier version and the error the current version
    sends in its place: the same, or a failed [Watch] with the path put in
    front. *)
Definition sameError (old new : string) : Prop :=
  new = old ∨ ∃ path, new = "Error watching " +:+ path +:+ ": " +:+ old.

(** A watcher of the earlier version and one of the current version that
    have done the same. *)
Definition agrees (l : legacy.Watcher) (w : Watcher) : Prop :=
  legacy.Packages l = Packages w ∧
  legacy.workingDirectory l = workingDirectory w ∧
  legacy.watchedDirectories l = watchedDirectories w ∧
  legacy.fsnotify_ l = fsnotify_ w ∧
  legacy.importCalls l = importCalls w ∧
  Forall2 sameError (legacy.Error l) (Error w).

(** ** Instances *)

(** An instance: [/a] and [/a/b] are both registered, and an event under
    [/a/b/c] belongs to the package at [/a/b]. *)
Definition pkgA : build.Package :=
  {| build.ImportPath := "a"; build.Dir := "/a"; build.Imports := [] |}.
Definition pkgAB : build.Package :=
  {| build.ImportPath := "a/b"; build.Dir := "/a/b"; build.Imports := [] |}.
Definition watcherAB : Watcher :=
  register pkgAB (register pkgA (initial "/" fsnotify.opened)).

(** An instance: the package at the root is registered and owns nothing. *)
Definition pkgRoot : build.Package :=
  {| build.ImportPath := "root"; build.Dir := "/"; build.Imports := [] |}.
Definition watcherRoot : Watcher :=
  register pkgRoot (initial "/" fsnotify.opened).

(** An instance: a package directory with a version-control directory, a
    subdirectory, and a directory the notifier refuses. *)
Definition treeA : FileTree :=
  Directory "a" None
    [ File "a.go";
      Directory ".git" None [ Directory "objects" None [] ];
      Directory "locked" None [];
      Directory "sub" None [ File "s.go" ] ].

Definition envA : Env :=
  {| build_Import := fun _ _ => inr "cannot find package";
     lstatTree := fun dir =>
       if decide (dir = "/src/a") then treeA
       else if decide (dir = "/src/.cfg")
       then Directory ".cfg" None [ Directory "x" None [] ]
       else Missing dir "no such file or directory";
     fsnotify_Watch := fun path =>
       if decide (path = "/src/a/locked") then Some "permission denied"
       else None;
     rangePackages := fun m => snd <$> map_to_list m |}.

Definition watcher0 : Watcher := initial "/" fsnotify.opened.

(** An instance: [A] imports [B] and [B] imports [A]. *)
Definition pkgCycleA : build.Package :=
  {| build.ImportPath := "A"; build.Dir := "/src/A"; build.Imports := [ "B" ] |}.
Definition pkgCycleB : build.Package :=
  {| build.ImportPath := "B"; build.Dir := "/src/B"; build.Imports := [ "A" ] |}.

Definition envCycle : Env :=
  {| build_Import := fun q _ =>
       if decide (q = "A") then inl pkgCycleA
       else if decide (q = "B") then inl pkgCycleB
       else inr "cannot find package";
     lstatTree := fun dir => Directory (filepath.Base dir) None [];
     fsnotify_Watch := fun _ => None;
     rangePackages := fun m => snd <$> map_to_list m |}.

(** An instance: [Close] is called on a new watcher; the proxy still
    publishes an event afterwards, and [Close] is still sending. *)
(** The cycle again, on a file system whose trees agree with each other. *)
Definition treeFS : FileTree :=
  Directory "A" None
    [ Directory ".git" None [ Directory "objects" None [] ];
      Directory "sub" None [] ].

Definition envFS : Env :=
  {| build_Import := build_Import envCycle;
     lstatTree := fun dir =>
       if decide (dir = "/src/A") then treeFS
       else if decide (dir = "/src/A/.git")
       then Directory ".git" None [ Directory "objects" None [] ]
       else if decide (dir = "/src/A/sub") then Directory "sub" None []
       else if decide (dir = "/src/B") then Directory "B" None []
       else Missing dir "no such file or directory";
     fsnotify_Watch := fun _ => None;
     rangePackages := fun m => snd <$> map_to_list m |}.

(** A watcher as [NewWatcher] would build it if it made [done]. *)
Definition watcherMade : Watcher :=
  {| Packages := ∅; DirPackages := ∅;
     Event_ := []; Error := [];
     workingDirectory := "/";
     watchedDirectories := ∅;
     fsnotify_ := fsnotify.opened; done := madeChan;
     importCalls := [] |}.

(** A package registered under a relative directory. *)
Definition pkgRel : build.Package :=
  {| build.ImportPath := "a/b"; build.Dir := "a/b"; build.Imports := [] |}.

(** An instance: [A] imports a package that is not there. *)
Definition envBroken : Env :=
  {| build_Import := fun q _ =>
       if decide (q = "A")
       then inl {| build.ImportPath := "A"; build.Dir := "/src/a";
                   build.Imports := [ "gone"; "C" ] |}
       else inr "cannot find package";
     lstatTree := lstatTree envA;
     fsnotify_Watch := fsnotify_Watch envA;
     rangePackages := fun m => snd <$> map_to_list m |}.

(** An instance: asked for the local import path [./foo], the resolver
    returns the package under its import path [example.com/foo]. *)
Definition pkgFoo : build.Package :=
  {| build.ImportPath := "example.com/foo";
     build.Dir := "/src/example.com/foo"; build.Imports := [] |}.

Definition envLocal : Env :=
  {| build_Import := fun q _ =>
       if decide (q = "./foo") then inl pkgFoo
       else inr "cannot find package";
     lstatTree := fun dir => Directory (filepath.Base dir) None [];
     fsnotify_Watch := fun _ => None;
     rangePackages := fun m => snd <$> map_to_list m |}.



(** An instance: a directory with a subdirectory that cannot be read. *)
Definition treeLocked : FileTree :=
  Directory "d" None
    [ Directory "u" (Some "permission denied") [ Directory "below" None [] ];
      Directory "v" None [] ].

Definition envLocked : Env :=
  {| build_Import := fun _ _ => inr "cannot find package";
     lstatTree := fun dir =>
       if decide (dir = "/d") then treeLocked
       else Missing dir "no such file or directory";
     fsnotify_Watch := fun _ => None;
     rangePackages := fun m => snd <$> map_to_list m |}.

Definition osOk : OS :=
  {| os_Getwd := inl "/home/u"; fsnotify_NewWatcher := inl fsnotify.opened |}.

Definition eventX : Event :=
  {| FileEvent := {| fsnotify.EventName := "/src/a/x.go"; fsnotify.EventOp := 1 |};
     Package := None |}.
(** * Properties *)

(** ** Path functions *)

Example Clean_tests :
  map filepath.Clean
    [ "abc"; "abc/def"; "."; ".."; "../.."; "../../abc"; "/abc"; "/"; "";
      "abc/"; "abc/def/"; "./"; "../"; "../../"; "/abc/";
      "abc//def//ghi"; "//abc"; "///abc"; "//abc//"; "abc//";
      "abc/./def"; "/./abc/def"; "abc/.";
      "abc/def/ghi/../jkl"; "abc/def/../ghi/../jkl"; "abc/def/..";
      "abc/def/../.."; "/abc/def/../.."; "abc/def/../../..";
      "/abc/def/../../.."; "abc/def/../../../ghi/jkl/../../../mno";
      "/../abc"; "abc/./../def"; "abc//./../def"; "abc/../../././../def" ]
  = [ "abc"; "abc/def"; "."; ".."; "../.."; "../../abc"; "/abc"; "/"; ".";
      "abc"; "abc/def"; "."; ".."; "../.."; "/abc";
      "abc/def/ghi"; "/abc"; "/abc"; "/abc"; "abc";
      "abc/def"; "/abc/def"; "abc";
      "abc/def/jkl"; "abc/jkl"; "abc";
      "."; "/"; "..";
      "/"; "../../mno";
      "/abc"; "def"; "def"; "../../def" ].
Proof. vm_compute. reflexivity. Qed.

Example Dir_tests :
  map filepath.Dir
    [ ""; "."; "/."; "/"; "////"; "/foo"; "x/"; "abc"; "abc/def";
      "a/b/.x"; "a/b/c."; "a/b/c.x" ]
  = [ "."; "."; "/"; "/"; "/"; "/"; "x"; "."; "abc"; "a/b"; "a/b"; "a/b" ].
Proof. vm_compute. reflexivity. Qed.

Example Base_tests :
  map filepath.Base
    [ ""; "."; "/."; "/"; "////"; "x/"; "abc"; "abc/def"; "a/b/.x";
      "a/b/c."; "a/b/c.x" ]
  = [ "."; "."; "."; "/"; "/"; "x"; "abc"; "def"; ".x"; "c."; "c.x" ].
Proof. vm_compute. reflexivity. Qed.

Example Join_tests :
  map (fun p => filepath.Join (fst p) (snd p))
    [ ("a", "b"); ("a", ""); ("", "b"); ("/", "a"); ("/a", "b"); ("a/", "b");
      ("", ""); ("/a/b", ".git") ]
  = [ "a/b"; "a"; "b"; "/a"; "/a/b"; "a/b"; ""; "/a/b/.git" ].
Proof. vm_compute. reflexivity. Qed.

Example ancestry_tests :
  map ancestry [ "/a/b/c.go"; "a/b/c.go"; "/a/b/../c/f.go"; "/x"; "/"; "."; "" ]
  = [ [ "/a/b/c.go"; "/a/b"; "/a" ];
      [ "a/b/c.go"; "a/b"; "a" ];
      [ "/a/b/../c/f.go"; "/a/c"; "/a" ];
      [ "/x" ]; []; []; [ "" ] ].
Proof. vm_compute. reflexivity. Qed.

Module filepath_facts.
Import filepath paths.

Lemma length_append (s t : string) :
  String.length (s +:+ t) = String.length s + String.length t.
Proof. induction s as [|c s IH]; simpl; [done|]. by rewrite IH. Qed.

Lemma append_nil (t : string) : "" +:+ t = t.
Proof. done. Qed.

Lemma append_cons c (s t : string) : String c s +:+ t = String c (s +:+ t).
Proof. done. Qed.

Lemma append_assoc (s t u : string) : (s +:+ t) +:+ u = s +:+ (t +:+ u).
Proof.
  induction s as [|c s IH]; [done|].
  change (String c ((s +:+ t) +:+ u) = String c (s +:+ (t +:+ u))).
  by rewrite IH.
Qed.

Lemma span_app l1 l2 : span (l1 ++ l2) = span l1 + span l2.
Proof. induction l1 as [|e l1 IH]; simpl; [done|]. rewrite IH. lia. Qed.

Lemma span_rev l : span (rev l) = span l.
Proof.
  induction l as [|e l IH]; simpl; [done|].
  rewrite span_app, IH. simpl. lia.
Qed.

Lemma elements_nonempty s : elements s ≠ [].
Proof.
  destruct s as [|c s]; simpl; [done|].
  destruct (IsPathSeparator c); [done|]. by destruct (elements s).
Qed.

Lemma elements_span s : span (elements s) = S (String.length s).
Proof.
  induction s as [|c s IH]; simpl; [done|].
  destruct (IsPathSeparator c); simpl; [by rewrite IH|].
  destruct (elements s) as [|e es] eqn:He; simpl in *; lia.
Qed.

Lemma joinElements_length l :
  l ≠ [] → S (String.length (joinElements l)) = span l.
Proof.
  induction l as [|e l IH]; [done|]. intros _.
  destruct l as [|e' l]; simpl in *; [lia|].
  rewrite length_append. simpl. specialize (IH ltac:(done)). lia.
Qed.

Lemma elements_ends s :
  endsWithSeparator s = true → ∃ e es, elements s = e :: es ++ [ "" ].
Proof.
  induction s as [|c s IH]; simpl; [done|].
  destruct s as [|c' s'].
  - intros ->. by exists "", [].
  - intros H. destruct (IH H) as (e & es & Hes). rewrite Hes.
    destruct (IsPathSeparator c).
    + by exists "", (e :: es).
    + by exists (String c e), es.
Qed.

Lemma throughLast_none s :
  hasSeparator s = false → throughLastSeparator s = "".
Proof.
  destruct s as [|c s]; simpl; [done|]. by intros ->.
Qed.

Lemma throughLast_ends s :
  hasSeparator s = true → endsWithSeparator (throughLastSeparator s) = true.
Proof.
  induction s as [|c s IH]; simpl; [done|].
  intros H. rewrite H.
  destruct (hasSeparator s) eqn:Hs.
  - specialize (IH eq_refl). simpl.
    destruct (throughLastSeparator s) eqn:Ht; [done|]. done.
  - rewrite orb_false_r in H. rewrite (throughLast_none s Hs). done.
Qed.

Lemma throughLast_length s :
  String.length (throughLastSeparator s) ≤ String.length s.
Proof.
  induction s as [|c s IH]; simpl; [done|].
  destruct (IsPathSeparator c || hasSeparator s); simpl; lia.
Qed.

Lemma cleanStep_span r out e :
  span (cleanStep r out e) ≤ span out + S (String.length e).
Proof.
  unfold cleanStep. repeat case_decide; subst; simpl; try lia.
  destruct out as [|top rest]; simpl.
  - destruct r; simpl; lia.
  - case_decide; simpl; lia.
Qed.

Lemma cleanStep_empty r out : cleanStep r out "" = out.
Proof. done. Qed.

Lemma foldl_cleanStep_span r es out :
  span (foldl (cleanStep r) out es) ≤ span out + span es.
Proof.
  revert out. induction es as [|e es IH]; intros out; simpl; [lia|].
  etrans; [apply IH|]. pose proof (cleanStep_span r out e). lia.
Qed.

(** Cleaning a path that ends in a separator gives the root, the current
    directory or a shorter path. *)
Lemma Clean_shorter p :
  endsWithSeparator p = true →
  Clean p = "/" ∨ Clean p = "." ∨ String.length (Clean p) < String.length p.
Proof.
  intros Hend. unfold Clean.
  destruct (elements_ends p Hend) as (e & es & Hes).
  pose proof (elements_span p) as Hspan.
  rewrite Hes in Hspan. simpl in Hspan. rewrite span_app in Hspan.
  simpl in Hspan.
  assert (Hfold : ∀ r, foldl (cleanStep r) [] (elements p)
                       = foldl (cleanStep r) (cleanStep r [] e) es).
  { intros r. rewrite Hes, app_comm_cons, foldl_app. done. }
  rewrite Hfold.
  destruct (isRooted p) eqn:Hr.
  - destruct p as [|c p']; [done|]. simpl in Hr.
    simpl in Hes. rewrite Hr in Hes. simplify_eq/=.
    rewrite cleanStep_empty.
    pose proof (foldl_cleanStep_span true es []) as Hle.
    rewrite <-span_rev in Hle.
    destruct (rev (foldl (cleanStep true) [] es)) as [|o out] eqn:Hout.
    + by left.
    + right; right.
      pose proof (joinElements_length (o :: out) ltac:(done)).
      simpl in *. lia.
  - pose proof (foldl_cleanStep_span false es (cleanStep false [] e)) as Hle.
    pose proof (cleanStep_span false [] e) as Hle1.
    rewrite <-span_rev in Hle.
    destruct (rev (foldl (cleanStep false) (cleanStep false [] e) es))
      as [|o out] eqn:Hout.
    + by right; left.
    + right; right.
      pose proof (joinElements_length (o :: out) ltac:(done)).
      simpl in *. lia.
Qed.

Lemma Dir_progress file :
  Dir file = "/" ∨ Dir file = "." ∨
  String.length (Dir file) < String.length file.
Proof.
  unfold Dir. destruct (hasSeparator file) eqn:Hs.
  - destruct (Clean_shorter _ (throughLast_ends file Hs)) as [?|[?|?]];
      [by left|by right; left|right; right].
    pose proof (throughLast_length file). lia.
  - rewrite (throughLast_none file Hs). by right; left.
Qed.

Lemma elements_single e : hasSeparator e = false → elements e = [ e ].
Proof.
  induction e as [|c e IH]; simpl; [done|].
  intros [Hc He]%orb_false_elim. rewrite Hc, (IH He). done.
Qed.

Lemma elements_app_sep e s :
  hasSeparator e = false →
  elements (e +:+ String Separator s) = e :: elements s.
Proof.
  induction e as [|c e IH]; simpl; [done|].
  intros [Hc He]%orb_false_elim. rewrite Hc, (IH He). done.
Qed.

Lemma elements_join cs :
  Forall (fun e => hasSeparator e = false) cs → cs ≠ [] →
  elements (joinElements cs) = cs.
Proof.
  induction 1 as [|e cs He Hcs IH]; [done|]. intros _.
  destruct cs as [|e' cs].
  - by apply elements_single.
  - change (joinElements (e :: e' :: cs))
      with (e +:+ String Separator (joinElements (e' :: cs))).
    rewrite elements_app_sep by done. by rewrite IH.
Qed.

Lemma joinElements_snoc cs c :
  cs ≠ [] →
  joinElements (cs ++ [ c ]) = joinElements cs +:+ String Separator c.
Proof.
  induction cs as [|e cs IH]; [done|]. intros _.
  destruct cs as [|e' cs]; [done|].
  change (joinElements ((e :: e' :: cs) ++ [ c ]))
    with (e +:+ String Separator (joinElements ((e' :: cs) ++ [ c ]))).
  rewrite IH by done.
  change (joinElements (e :: e' :: cs))
    with (e +:+ String Separator (joinElements (e' :: cs))).
  by rewrite append_assoc.
Qed.

Lemma hasSeparator_app s t :
  hasSeparator (s +:+ t) = hasSeparator s || hasSeparator t.
Proof.
  induction s as [|c s IH]; [done|].
  rewrite append_cons. simpl. by rewrite IH, orb_assoc.
Qed.

Lemma throughLast_app_sep s c :
  hasSeparator c = false →
  throughLastSeparator (s +:+ String Separator c) = s +:+ String Separator "".
Proof.
  intros Hc. induction s as [|a s IH].
  - rewrite !append_nil. cbn [throughLastSeparator].
    replace (IsPathSeparator Separator) with true by done.
    by rewrite (throughLast_none c Hc).
  - rewrite !append_cons. cbn [throughLastSeparator].
    rewrite hasSeparator_app. cbn [hasSeparator].
    replace (IsPathSeparator Separator) with true by done.
    rewrite orb_true_l, !orb_true_r, IH. done.
Qed.

Lemma cleanStep_normal r out e :
  normalElement e → cleanStep r out e = e :: out.
Proof.
  intros (? & ? & ? & _). unfold cleanStep. by repeat case_decide.
Qed.

Lemma foldl_cleanStep_normal r cs out :
  Forall normalElement cs → foldl (cleanStep r) out cs = rev cs ++ out.
Proof.
  intros Hcs. revert out.
  induction Hcs as [|e cs He Hcs IH]; intros out; simpl; [done|].
  rewrite cleanStep_normal, IH, <-app_assoc by done. done.
Qed.

Lemma normal_no_separator cs :
  Forall normalElement cs → Forall (fun e => hasSeparator e = false) cs.
Proof. intros H. eapply Forall_impl; [done|]. by intros e (_ & _ & _ & ?). Qed.

(** Cleaning an absolute path of normal elements followed by a
    separator removes that separator (and nothing else). *)
Lemma Clean_absPath_sep cs :
  Forall normalElement cs → cs ≠ [] →
  Clean (absPath cs +:+ String Separator "") = absPath cs.
Proof.
  intros Hcs Hne. unfold absPath.
  change (String Separator (joinElements cs) +:+ String Separator "")
    with (String Separator (joinElements cs +:+ String Separator "")).
  rewrite <-joinElements_snoc by done.
  unfold Clean. cbn [isRooted elements].
  replace (IsPathSeparator Separator) with true by done.
  rewrite elements_join; cycle 1.
  { apply Forall_app; split; [by apply normal_no_separator|].
    by repeat constructor. }
  { by destruct cs. }
  cbn [foldl]. rewrite cleanStep_empty, foldl_app. cbn [foldl].
  rewrite cleanStep_empty, foldl_cleanStep_normal, app_nil_r, rev_involutive
    by done.
  done.
Qed.

Lemma absPath_snoc cs c :
  absPath (cs ++ [ c ])
  = (if decide (cs = []) then "" else absPath cs) +:+ String Separator c.
Proof.
  unfold absPath. case_decide as Hcs; [by subst|].
  by rewrite joinElements_snoc.
Qed.

(** The parent of a clean absolute path drops its last element. *)
Lemma Dir_absPath_snoc cs c :
  Forall normalElement cs → normalElement c →
  Dir (absPath (cs ++ [ c ])) = absPath cs.
Proof.
  intros Hcs (_ & _ & _ & Hc). unfold Dir.
  rewrite absPath_snoc, throughLast_app_sep by done.
  case_decide as Hnil; [by subst|].
  by apply Clean_absPath_sep.
Qed.

Lemma absPath_not_boundary cs :
  Forall normalElement cs → cs ≠ [] →
  absPath cs ≠ "." ∧ absPath cs ≠ "/".
Proof.
  intros Hcs Hne. split; [done|]. unfold absPath.
  destruct cs as [|e cs]; [done|].
  apply Forall_cons in Hcs as [(He & _) _].
  destruct cs as [|e' cs]; simpl.
  - intros [= ?]. done.
  - destruct e; [done|]. done.
Qed.

End filepath_facts.

(** ** Event attribution *)

Section Attribution.
Import filepath paths filepath_facts.

Implicit Types (w : Watcher) (file : string) (cs : list string).

Lemma Dir_fuel file n :
  String.length file + 2 ≤ S n →
  String.length (Dir file) + 2 ≤ n ∨ (boundary (Dir file) ∧ 1 ≤ n).
Proof.
  intros Hn. destruct (Dir_progress file) as [->|[->|Hlt]].
  - right. split; [|lia]. intros [_ ?]. done.
  - right. split; [|lia]. intros [? _]. done.
  - left. lia.
Qed.

(** The loop of [findPackage] ends within [2 + len(file)] iterations,
    with the first registered candidate. *)
Lemma findPackageLoop_ancestry w n file :
  String.length file + 2 ≤ n ∨ (boundary file ∧ 1 ≤ n) →
  findPackageLoop n w file
  = Some (firstRegistered (DirPackages w) (ancestryLoop n file)).
Proof.
  revert file. induction n as [|n IH]; intros file Hn.
  { destruct Hn as [?|[_ ?]]; lia. }
  simpl. case_decide as Hb.
  - simpl. destruct (DirPackages w !! file) as [pkg|]; [done|].
    apply IH. destruct Hn as [Hn|[Hn _]]; [|done].
    by apply Dir_fuel.
  - done.
Qed.

Lemma ancestryLoop_fuel n m file :
  String.length file + 2 ≤ n ∨ (boundary file ∧ 1 ≤ n) →
  String.length file + 2 ≤ m ∨ (boundary file ∧ 1 ≤ m) →
  ancestryLoop n file = ancestryLoop m file.
Proof.
  revert m file. induction n as [|n IH]; intros m file Hn Hm.
  { destruct Hn as [?|[_ ?]]; lia. }
  destruct m as [|m]; [destruct Hm as [?|[_ ?]]; lia|].
  simpl. case_decide as Hb; [|done]. f_equal.
  destruct Hn as [Hn|[Hn _]]; [|done].
  destruct Hm as [Hm|[Hm _]]; [|done].
  apply IH; by apply Dir_fuel.
Qed.

Lemma findPackageLoop_total w file :
  ∃ r, findPackageLoop (2 + String.length file) w file = Some r.
Proof. eexists. apply findPackageLoop_ancestry. left. lia. Qed.

Lemma findPackage_ancestry w file :
  findPackage w file = firstRegistered (DirPackages w) (ancestry file).
Proof.
  unfold findPackage, ancestry.
  rewrite findPackageLoop_ancestry by (left; lia). done.
Qed.

Lemma ancestryLoop_no_boundary n file d :
  d ∈ ancestryLoop n file → d ≠ "." ∧ d ≠ "/".
Proof.
  revert file. induction n as [|n IH]; intros file; simpl.
  { by intros ?%elem_of_nil. }
  case_decide as Hb; [|by intros ?%elem_of_nil].
  intros [->|Hd]%elem_of_cons; [done|]. by eapply IH.
Qed.

Lemma firstRegistered_elem idx dirs pkg :
  firstRegistered idx dirs = Some pkg → ∃ d, d ∈ dirs ∧ idx !! d = Some pkg.
Proof.
  induction dirs as [|d dirs IH]; simpl; [done|].
  destruct (idx !! d) as [p|] eqn:Hd.
  - intros [= ->]. exists d. split; [by left|done].
  - intros (d' & ? & ?)%IH. exists d'. split; [by right|done].
Qed.

Lemma firstRegistered_None idx dirs :
  Forall (fun d => idx !! d = None) dirs → firstRegistered idx dirs = None.
Proof. induction 1 as [|d dirs Hd _ IH]; simpl; [done|]. by rewrite Hd. Qed.

Lemma prefixes_snoc cs c :
  prefixes (cs ++ [ c ]) = absPath (cs ++ [ c ]) :: prefixes cs.
Proof.
  unfold prefixes. rewrite length_app. simpl length.
  rewrite Nat.add_1_r, seq_S, rev_unit. cbn [fmap list_fmap]. f_equal.
  - by rewrite take_ge by (rewrite length_app; simpl; lia).
  - apply list_fmap_ext. intros i k Hk.
    assert (k ∈ rev (seq 1 (length cs))) as Hin
      by (eapply list_elem_of_lookup_2; done).
    apply list_elem_of_In in Hin. rewrite <-in_rev, in_seq in Hin.
    cbn beta. by rewrite take_app_le by lia.
Qed.

Lemma ancestryLoop_absPath cs n :
  Forall normalElement cs → length cs < n →
  ancestryLoop n (absPath cs) = prefixes cs.
Proof.
  revert n. induction cs as [|c cs IH] using rev_ind; intros n Hcs Hn.
  - destruct n; [lia|]. done.
  - apply Forall_app in Hcs as [Hcs [Hc _]%Forall_cons].
    rewrite length_app in Hn. simpl in Hn.
    destruct n as [|n]; [lia|]. cbn [ancestryLoop].
    destruct (absPath_not_boundary (cs ++ [ c ])) as [? ?].
    { apply Forall_app. split; [done|]. by constructor. }
    { by destruct cs. }
    rewrite decide_True by done.
    rewrite Dir_absPath_snoc, IH, prefixes_snoc by (done || lia). done.
Qed.

Lemma length_le_absPath cs :
  Forall normalElement cs → length cs ≤ String.length (absPath cs).
Proof.
  intros Hcs. unfold absPath. simpl.
  destruct (decide (cs = [])) as [->|Hne]; [simpl; lia|].
  pose proof (joinElements_length cs Hne) as Hlen.
  assert (length cs ≤ span cs); [|lia].
  clear Hlen Hne. induction Hcs; simpl; lia.
Qed.

Lemma ancestry_absPath cs :
  Forall normalElement cs → ancestry (absPath cs) = prefixes cs.
Proof.
  intros Hcs. apply ancestryLoop_absPath; [done|].
  pose proof (length_le_absPath cs Hcs). lia.
Qed.

Lemma firstRegistered_nearest idx (f : nat → string) n :
  match firstRegistered idx (f <$> rev (seq 1 n)) with
  | Some pkg =>
      ∃ k, 0 < k ≤ n ∧ idx !! f k = Some pkg ∧
           ∀ j, k < j ≤ n → idx !! f j = None
  | None => ∀ k, 0 < k ≤ n → idx !! f k = None
  end.
Proof.
  induction n as [|n IH].
  { simpl. intros k ?. lia. }
  rewrite seq_S, rev_unit. cbn [fmap list_fmap firstRegistered].
  change (1 + n) with (S n).
  destruct (idx !! f (S n)) as [pkg|] eqn:Hn.
  - exists (S n). repeat split; [lia|lia|done|]. intros j ?. lia.
  - change (list_fmap nat string f (rev (seq 1 n)))
      with (f <$> rev (seq 1 n)).
    destruct (firstRegistered idx (f <$> rev (seq 1 n))) as [pkg|].
    + destruct IH as (k & Hk & Hpkg & Hnone).
      exists k. repeat split; [lia|lia|done|].
      intros j Hj. destruct (decide (j = S n)) as [->|]; [done|].
      apply Hnone. lia.
    + intros k Hk. destruct (decide (k = S n)) as [->|]; [done|].
      apply IH. lia.
Qed.

(** C2: [findPackage] tests the event path and then its ancestors,
    nearest first, against the directory index and returns the first
    match.  For every path the loop ends within [2 + len(file)]
    iterations, with the first registered candidate; for a clean absolute
    path [/c1/.../cn] the candidates are [/c1/.../cn], [/c1/.../c(n-1)],
    ..., [/c1], so the result is the package of the longest registered
    prefix, and no package when no prefix is registered. *)
Theorem findPackage_nearest_ancestor w :
  (∀ file fuel,
     2 + String.length file ≤ fuel →
     findPackageLoop fuel w file = Some (findPackage w file) ∧
     findPackage w file = firstRegistered (DirPackages w) (ancestry file)) ∧
  (∀ cs, Forall normalElement cs →
     ancestry (absPath cs) = prefixes cs ∧
     match findPackage w (absPath cs) with
     | Some pkg =>
         ∃ k, 0 < k ≤ length cs ∧
              DirPackages w !! absPath (take k cs) = Some pkg ∧
              ∀ j, k < j ≤ length cs →
                   DirPackages w !! absPath (take j cs) = None
     | None =>
         ∀ k, 0 < k ≤ length cs →
              DirPackages w !! absPath (take k cs) = None
     end).
Proof.
  split.
  { intros file fuel Hfuel. split; [|apply findPackage_ancestry].
    rewrite findPackageLoop_ancestry, findPackage_ancestry by (left; lia).
    unfold ancestry. f_equal. f_equal. apply ancestryLoop_fuel; left; lia. }
  intros cs Hcs. split; [by apply ancestry_absPath|].
  rewrite findPackage_ancestry, ancestry_absPath by done.
  apply (firstRegistered_nearest (DirPackages w)
           (fun k => absPath (take k cs))).
Qed.

(** C9: the loop condition of [findPackage] excludes ["/"] and ["."]
    from the candidates, so a package whose directory is the root (or
    the relative root) is never returned, and an event is attributed to
    no package when these are the only registered directories. *)
Theorem findPackage_never_root w file pkg :
  indexedByDir w →
  build.Dir pkg = "/" ∨ build.Dir pkg = "." →
  ("/" ∉ ancestry file) ∧ ("." ∉ ancestry file) ∧
  findPackage w file ≠ Some pkg ∧
  ((∀ d, is_Some (DirPackages w !! d) → d = "/" ∨ d = ".") →
   findPackage w file = None).
Proof.
  intros Hidx Hroot.
  assert (Hnb : ∀ d, d ∈ ancestry file → d ≠ "." ∧ d ≠ "/").
  { intros d. apply ancestryLoop_no_boundary. }
  split; [by intros [_ ?]%Hnb|]. split; [by intros [? _]%Hnb|].
  rewrite findPackage_ancestry. split.
  - intros (d & [Hd1 Hd2]%Hnb & Hp%Hidx)%firstRegistered_elem.
    destruct Hroot; congruence.
  - intros Honly. apply firstRegistered_None, Forall_forall.
    intros d [Hd1 Hd2]%Hnb.
    destruct (DirPackages w !! d) eqn:Hd; [|done].
    destruct (Honly d ltac:(by eexists)); done.
Qed.

End Attribution.

Lemma findPackage_nearest_ancestor_witness :
  findPackage watcherAB "/a/b/c/file.go" = Some pkgAB ∧
  findPackage watcherAB "/x/y/file.go" = None ∧
  ancestry "/a/b/c/file.go" = [ "/a/b/c/file.go"; "/a/b/c"; "/a/b"; "/a" ].
Proof.
  split; [vm_compute; reflexivity|]. split; [vm_compute; reflexivity|].
  apply (proj2 (findPackage_nearest_ancestor watcherAB)
           [ "a"; "b"; "c"; "file.go" ]).
  repeat constructor; vm_compute; congruence.
Defined.

Lemma findPackage_never_root_witness :
  DirPackages watcherRoot !! "/" = Some pkgRoot ∧
  findPackage watcherRoot "/a/file.go" ≠ Some pkgRoot ∧
  findPackage watcherRoot "/a/file.go" = None.
Proof.
  split; [vm_compute; reflexivity|].
  assert (Hidx : indexedByDir watcherRoot).
  { intros d p. unfold watcherRoot, register, initial. simpl.
    intros [[<- <-]|[_ ?]]%lookup_insert_Some; [done|].
    by rewrite lookup_empty in *. }
  destruct (findPackage_never_root watcherRoot "/a/file.go" pkgRoot Hidx
              (or_introl eq_refl)) as (_ & _ & Hne & Hnone).
  split; [exact Hne|]. apply Hnone.
  intros d. unfold watcherRoot, register, initial. simpl.
  intros [p [[<- _]|[_ ?]]%lookup_insert_Some]; [by left|].
  by rewrite lookup_empty in *.
Defined.

(** ** The directory-watch installer *)

Lemma FileTree_ind (P : FileTree → Prop) :
  (∀ n e, P (Missing n e)) →
  (∀ n, P (File n)) →
  (∀ n r es, Forall P es → P (Directory n r es)) →
  ∀ t, P t.
Proof.
  intros HM HF HD. fix IH 1. intros [n e|n|n r es]; [apply HM|apply HF|].
  apply HD. induction es as [|t es IHes]; constructor; [apply IH|apply IHes].
Qed.

Lemma entryName_prune e : entryName (prune e) = entryName e.
Proof. destruct e; cbn [prune]; [done..|]. by destruct (hidden _). Qed.

Lemma isFile_prune e : isFile (prune e) = isFile e.
Proof. destruct e; cbn [prune]; [done..|]. by destruct (hidden _). Qed.

Section WalkFacts.
Context {St : Type}.
Variable walkFn : string → WalkArg → St → option WalkError * St.

(** A property of the state that every callback invocation keeps is
    kept by the walk. *)
Lemma walk_preserves (I : St → Prop) :
  (∀ path a s, I s → I (snd (walkFn path a s))) →
  ∀ t path s, I s → I (snd (walk walkFn path t s)).
Proof.
  intros Hfn. induction t as [n e|n|n r es IH] using FileTree_ind;
    intros path s Hs; simpl; [by apply Hfn..|].
  destruct r as [err|]; [by apply Hfn|].
  pose proof (Hfn path (Entry {| Name := n; IsDir := true |}) s Hs) as H1.
  destruct (walkFn path _ s) as [err1 s1]. simpl in H1.
  destruct err1; [done|].
  clear Hs. revert s1 H1. induction IH as [|e es He _ IHes]; intros s1 H1.
  { done. }
  simpl. pose proof (He (filepath.Join path (entryName e)) s1 H1) as H2.
  destruct (walk walkFn _ e s1) as [r s2]. simpl in H2.
  destruct r as [[|msg]|]; [|done|by apply IHes].
  destruct (isFile e); [done|by apply IHes].
Qed.

Lemma Walk_preserves (I : St → Prop) :
  (∀ path a s, I s → I (snd (walkFn path a s))) →
  ∀ t root s, I s → I (snd (Walk walkFn root t s)).
Proof.
  intros Hfn t root s Hs. unfold Walk.
  pose proof (walk_preserves I Hfn t root s Hs) as H.
  destruct (walk walkFn root t s) as [[[|msg]|] s']; done.
Qed.

(** When the callback answers [SkipDir] (or any error) to every hidden
    directory, the walk does not depend on what is below them. *)
Lemma walk_prune :
  (∀ path info s, IsDir info = true → hidden info = true →
                  is_Some (fst (walkFn path (Entry info) s))) →
  ∀ t path s, walk walkFn path (prune t) s = walk walkFn path t s.
Proof.
  intros Hfn. induction t as [n e|n|n r es IH] using FileTree_ind;
    intros path s; [done..|].
  cbn [prune]. destruct (hidden _) eqn:Hh.
  - cbn [walk]. destruct r; [done|].
    pose proof (Hfn path {| Name := n; IsDir := true |} s eq_refl Hh) as [x Hx].
    destruct (walkFn path _ s) as [err1 s1]. simpl in Hx. by subst.
  - cbn [walk]. destruct r; [done|].
    destruct (walkFn path _ s) as [err1 s1]. destruct err1; [done|].
    revert s1. induction IH as [|e es He _ IHes]; intros s1; [done|].
    cbn [map walkEntries].
    rewrite entryName_prune, isFile_prune, He. destruct (walk walkFn _ e s1) as [r s2].
    destruct r as [[|msg]|]; [|done|by apply IHes].
    destruct (isFile e); [done|by apply IHes].
Qed.

(** Recording the invocations does not change what the walk does. *)
Lemma walk_traced t path s log :
  ∃ log', walk (traced walkFn) path t (s, log)
          = (fst (walk walkFn path t s), (snd (walk walkFn path t s), log')).
Proof.
  revert path s log.
  induction t as [n e|n|n r es IH] using FileTree_ind; intros path s log.
  - simpl. unfold traced. simpl. destruct (walkFn _ _ s). by eexists.
  - simpl. unfold traced. simpl. destruct (walkFn _ _ s). by eexists.
  - cbn [walk]. destruct r.
    { unfold traced. simpl. destruct (walkFn _ _ s). by eexists. }
    unfold traced at 1. cbn [fst snd].
    destruct (walkFn path _ s) as [err1 s1]. destruct err1; [by eexists|].
    generalize (log ++ [(path, Entry {| Name := n; IsDir := true |})]).
    clear log. revert s1.
    induction IH as [|e es He _ IHes]; intros s1 log; [by eexists|].
    cbn [walkEntries].
    destruct (He (filepath.Join path (entryName e)) s1 log) as [log1 ->].
    destruct (walk walkFn _ e s1) as [r s2]. cbn [fst snd].
    destruct r as [[|msg]|]; [|by eexists|by apply IHes].
    destruct (isFile e); [by eexists|by apply IHes].
Qed.

End WalkFacts.

Section Installer.
Implicit Types (w : Watcher) (E : Env).

Lemma watched_markWatched w p q :
  watched (markWatched p w) q = if decide (p = q) then true else watched w q.
Proof.
  unfold watched, markWatched. simpl. rewrite lookup_insert.
  by case_decide.
Qed.

Lemma extends_refl w : extends w w.
Proof.
  exists []. rewrite app_nil_r.
  split; [done|]. split; [apply NoDup_nil_2|].
  split; [by intros p ?%elem_of_nil|done].
Qed.

Lemma extends_trans w1 w2 w3 : extends w1 w2 → extends w2 w3 → extends w1 w3.
Proof.
  intros (n1 & H1 & Hd1 & Hn1 & Hm1) (n2 & H2 & Hd2 & Hn2 & Hm2).
  exists (n1 ++ n2). rewrite H2, H1, <-app_assoc.
  split; [done|]. split; [|split].
  - apply NoDup_app. split; [done|]. split; [|done].
    intros p [_ Hp1]%Hn1 [Hp2 _]%Hn2. congruence.
  - intros p [Hp|Hp]%elem_of_app.
    + destruct (Hn1 p Hp). auto.
    + destruct (Hn2 p Hp) as [Hf Ht]. split; [|done].
      destruct (watched w1 p) eqn:Hw; [|done].
      apply Hm1 in Hw. congruence.
  - auto.
Qed.

Lemma visit_extends E dir path a w : extends w (snd (visit E dir path a w)).
Proof.
  destruct a as [info|info err]; simpl.
  - destruct (IsDir info); simpl; [|apply extends_refl].
    destruct (hidden info); simpl; [apply extends_refl|].
    destruct (watched w path) eqn:Hw; simpl; [apply extends_refl|].
    exists [ path ]. split; [|split; [|split]].
    + by destruct (fsnotify_Watch E path).
    + apply NoDup_singleton.
    + intros p Hp%list_elem_of_singleton. subst p. split; [done|].
      rewrite watched_markWatched. by rewrite decide_True.
    + intros p Hp. rewrite watched_markWatched. case_decide; [done|].
      by destruct (fsnotify_Watch E path).
  - exists []. rewrite app_nil_r.
    split; [done|]. split; [apply NoDup_nil_2|].
    split; [by intros p ?%elem_of_nil|done].
Qed.

Lemma WatchDirectory_extends E dir w : extends w (WatchDirectory E dir w).
Proof.
  unfold WatchDirectory. destruct (watched w dir); [apply extends_refl|].
  apply (Walk_preserves (visit E dir) (extends w)); [|apply extends_refl].
  intros path a s Hs. eapply extends_trans; [done|apply visit_extends].
Qed.

Lemma watchDirectories_extends calls w : extends w (watchDirectories calls w).
Proof.
  unfold watchDirectories. revert w.
  induction calls as [|[E dir] calls IH]; intros w; [apply extends_refl|].
  simpl. eapply extends_trans; [apply WatchDirectory_extends|apply IH].
Qed.

End Installer.

(** ** The package graph builder *)

Section Builder.
Variable E : Env.
Implicit Types (w : Watcher) (p q : string).

Lemma visit_sameRegistry E' dir path a w w0 :
  sameRegistry w0 w → sameRegistry w0 (snd (visit E' dir path a w)).
Proof.
  intros H. destruct a as [info|info err]; simpl; [|done].
  destruct (IsDir info); simpl; [|done].
  destruct (hidden info); simpl; [done|].
  destruct (watched w path); simpl; [done|].
  by destruct (fsnotify_Watch E' path).
Qed.

Lemma WatchDirectory_sameRegistry E' dir w :
  sameRegistry w (WatchDirectory E' dir w).
Proof.
  unfold WatchDirectory. destruct (watched w dir); [done|].
  apply (Walk_preserves (visit E' dir) (sameRegistry w)); [|done].
  intros. by apply visit_sameRegistry.
Qed.

Lemma sameRegistry_trans w1 w2 w3 :
  sameRegistry w1 w2 → sameRegistry w2 w3 → sameRegistry w1 w3.
Proof.
  intros (? & ? & ? & ? & ? & ? & ?) (? & ? & ? & ? & ? & ? & ?).
  repeat split; congruence.
Qed.

Lemma rewatch_sameRegistry (pkgs : list build.Package) w :
  sameRegistry w
    (foldl (fun acc pkg => WatchDirectory E (build.Dir pkg) acc) w pkgs).
Proof.
  revert w. induction pkgs as [|pkg pkgs IH]; intros w; [done|].
  simpl. eapply sameRegistry_trans; [|apply IH].
  apply WatchDirectory_sameRegistry.
Qed.






(** A property of the watcher kept by each of the steps of
    [WatchImportPath] is kept by [WatchImportPath]. *)
Section Preserves.
Variable I : Watcher → Prop.
Hypothesis I_noteImport : ∀ w p, I w → I (noteImport p w).
Hypothesis I_sendError : ∀ w msg, I w → I (sendError msg w).
Hypothesis I_register : ∀ w pkg, I w → I (register pkg w).
Hypothesis I_WatchDirectory : ∀ w dir, I w → I (WatchDirectory E dir w).

Lemma rewatch_preserves (pkgs : list build.Package) w :
  I w → I (foldl (fun acc pkg => WatchDirectory E (build.Dir pkg) acc) w pkgs).
Proof.
  revert w. induction pkgs as [|pkg pkgs IH]; intros w Hw; [done|].
  simpl. apply IH. by apply I_WatchDirectory.
Qed.

Lemma watchAll_preserves_step n :
  (∀ p w w', I w → WatchImportPath E n p w = Some w' → I w') →
  ∀ ps w w', I w → watchAll E n ps w = Some w' → I w'.
Proof.
  intros IH ps. unfold watchAll.
  induction ps as [|p ps IHps]; intros w w' Hw; simpl.
  { by intros [= <-]. }
  destruct (WatchImportPath E n p w) as [w1|] eqn:H1; simpl.
  - apply IHps. by eapply IH.
  - intros Hnone. exfalso. revert Hnone. clear.
    induction ps as [|q ps IHq]; simpl; [done|]. apply IHq.
Qed.

Lemma WatchImportPath_preserves n :
  ∀ p w w', I w → WatchImportPath E n p w = Some w' → I w'.
Proof.
  induction n as [|n IH]; intros p w w' Hw; [done|].
  cbn [WatchImportPath]. case_decide; [by intros [= <-]|].
  destruct (Packages w !! p); [by intros [= <-]|].
  destruct (build_Import E p (workingDirectory w)) as [pkg|err].
  - pose proof (watchAll_preserves_step n IH (build.Imports pkg)
                  (register pkg (noteImport p w))) as Hall.
    unfold watchAll in Hall.
    destruct (foldl _ _ _) as [w2|]; simpl; [|done].
    intros [= <-]. apply rewatch_preserves. eapply Hall; [|done].
    by apply I_register, I_noteImport.
  - intros [= <-]. by apply I_sendError, I_noteImport.
Qed.

Lemma watchAll_preserves n ps w w' :
  I w → watchAll E n ps w = Some w' → I w'.
Proof. apply watchAll_preserves_step, WatchImportPath_preserves. Qed.

End Preserves.

Section Finite.
(** The resolver answers with the package of the import path it was
    asked for, and finds packages only for the import paths of [U]. *)
Variable U : gset string.
Hypothesis resolver_sound :
  ∀ q wd pkg, build_Import E q wd = inl pkg →
              build.ImportPath pkg = q ∧ q ∈ U.




End Finite.

End Builder.

(** ** Claims about the installer *)

Section InstallerClaims.
Implicit Types (w : Watcher) (E : Env).

Lemma extends_unchanged w0 w w' :
  notifierWatches w' = notifierWatches w →
  watchedDirectories w' = watchedDirectories w →
  extends w0 w → extends w0 w'.
Proof.
  intros Hn Hm (new & Hnew & Hnd & Hin & Hmono).
  assert (Hw : ∀ p, watched w' p = watched w p).
  { intros p. unfold watched. by rewrite Hm. }
  exists new. rewrite Hn. split; [done|]. split; [done|].
  split; intros p; rewrite Hw; auto.
Qed.

(** The [WatchDirectory] calls that [WatchImportPath] makes, for the
    packages reached along any chain of imports, are of that kind too. *)
Lemma watchAll_extends E n ps w w' :
  watchAll E n ps w = Some w' → extends w w'.
Proof.
  apply (watchAll_preserves E (extends w)).
  - intros w1 p. by apply extends_unchanged.
  - intros w1 msg. by apply extends_unchanged.
  - intros w1 pkg. by apply extends_unchanged.
  - intros w1 dir H. eapply extends_trans; [done|apply WatchDirectory_extends].
  - apply extends_refl.
Qed.

(** C6: over any sequence of [WatchDirectory] calls on a new watcher the
    notifier is handed every directory path at most once, also when the
    calls are those [WatchImportPath] makes while it follows the imports;
    a path that is marked as watched stays marked and is never handed to
    the notifier again; and a directory whose registration fails is marked
    all the same, the failure is sent on the error channel and the
    callback returns [nil], so the walk goes on. *)
Theorem WatchDirectory_registers_once :
  (∀ wd calls,
     NoDup (notifierWatches
              (watchDirectories calls (initial wd fsnotify.opened)))) ∧
  (∀ E fuel importPaths wd w',
     watchAll E fuel importPaths (initial wd fsnotify.opened) = Some w' →
     NoDup (notifierWatches w')) ∧
  (∀ calls w p,
     watched w p = true →
     watched (watchDirectories calls w) p = true ∧
     ∃ new, notifierWatches (watchDirectories calls w)
            = notifierWatches w ++ new ∧ p ∉ new) ∧
  (∀ E dir path info w err,
     IsDir info = true → hidden info = false → watched w path = false →
     fsnotify_Watch E path = Some err →
     ∃ w', visit E dir path (Entry info) w = (None, w') ∧
           watched w' path = true ∧
           notifierWatches w' = notifierWatches w ++ [ path ] ∧
           Error w' = Error w ++ [ "Error watching " +:+ path +:+ ": " +:+ err ]).
Proof.
  split; [|split; [|split]].
  - intros wd calls.
    destruct (watchDirectories_extends calls (initial wd fsnotify.opened))
      as (new & -> & Hnd & _). done.
  - intros E fuel importPaths wd w' Hrun.
    destruct (watchAll_extends _ _ _ _ _ Hrun) as (new & -> & Hnd & _). done.
  - intros calls w p Hp.
    destruct (watchDirectories_extends calls w) as (new & Hnew & _ & Hn & Hm).
    split; [by apply Hm|]. exists new. split; [done|].
    intros [? _]%Hn. congruence.
  - intros E dir path info w err Hd Hh Hw He. eexists. simpl.
    rewrite Hd, Hh, Hw, He. simpl. split; [done|].
    rewrite watched_markWatched, decide_True by done. done.
Qed.

Lemma traced_visit_skips E dir path info s :
  IsDir info = true → hidden info = true →
  is_Some (fst (traced (visit E dir) path (Entry info) s)).
Proof.
  intros Hd Hh. unfold traced. simpl. rewrite Hd, Hh. simpl. by eexists.
Qed.

Lemma traced_visit_from E dir w0 log0 path a s :
  tracedFrom w0 log0 s →
  tracedFrom w0 log0 (snd (traced (visit E dir) path a s)).
Proof.
  intros (newlog & new & Hlog & Hnew & Hall). destruct s as [w log].
  simpl in *. subst log. unfold traced. cbn [fst snd].
  destruct (visit E dir path a w) as [r w'] eqn:Hv. cbn [fst snd].
  assert (Hkeep : ∀ p, p ∈ new →
            ∃ info, (p, Entry info) ∈ newlog ++ [ (path, a) ] ∧
                    IsDir info = true ∧ hidden info = false).
  { intros p (info & ? & ? & ?)%Hall. exists info.
    split; [apply elem_of_app; by left|done]. }
  destruct a as [info|info err]; simpl in Hv.
  - destruct (IsDir info) eqn:Hd; simpl in Hv; cycle 1.
    { simplify_eq. exists (newlog ++ [ (path, Entry info) ]), new.
      by rewrite app_assoc. }
    destruct (hidden info) eqn:Hh; simpl in Hv.
    { simplify_eq. exists (newlog ++ [ (path, Entry info) ]), new.
      by rewrite app_assoc. }
    destruct (watched w path) eqn:Hw; simpl in Hv.
    { simplify_eq. exists (newlog ++ [ (path, Entry info) ]), new.
      by rewrite app_assoc. }
    simplify_eq.
    exists (newlog ++ [ (path, Entry info) ]), (new ++ [ path ]).
    split; [by rewrite app_assoc|]. split.
    + rewrite app_assoc, <-Hnew. by destruct (fsnotify_Watch E path).
    + intros p [Hp|Hp%list_elem_of_singleton]%elem_of_app;
        [by apply Hkeep|subst p].
      exists info. split; [|done]. apply elem_of_app. right. by left.
  - simplify_eq.
    exists (newlog ++ [ (path, EntryErr info err) ]), new.
    by rewrite app_assoc.
Qed.

(** C7: the callback answers a hidden directory with [SkipDir] and
    leaves the watcher as it is (also when the directory cannot be read,
    where it only reports the error); the walk, with every invocation of
    the callback recorded, is the walk of the tree without the entries
    of its hidden directories; and every directory handed to the
    notifier was seen by the callback as a directory that is not
    hidden. *)
Theorem WatchDirectory_skips_hidden E dir :
  (∀ path info w,
     IsDir info = true → hidden info = true →
     visit E dir path (Entry info) w = (Some SkipDir, w)) ∧
  (∀ path info err w,
     hidden info = true →
     notifierWatches (snd (visit E dir path (EntryErr (Some info) err) w))
     = notifierWatches w ∧
     watchedDirectories (snd (visit E dir path (EntryErr (Some info) err) w))
     = watchedDirectories w) ∧
  (∀ t root s,
     Walk (traced (visit E dir)) root (prune t) s
     = Walk (traced (visit E dir)) root t s) ∧
  (∀ t root w, tracedFrom w [] (snd (Walk (traced (visit E dir)) root t (w, [])))).
Proof.
  split; [|split; [|split]].
  - intros path info w Hd Hh. simpl. by rewrite Hd, Hh.
  - done.
  - intros t root s. unfold Walk.
    rewrite walk_prune; [done|]. intros. by apply traced_visit_skips.
  - intros t root w. apply Walk_preserves.
    + intros. by apply traced_visit_from.
    + exists [], []. split; [done|]. split; [by rewrite app_nil_r|].
      by intros p ?%elem_of_nil.
Qed.

(** C10: when the directory passed to [WatchDirectory] is itself hidden,
    nothing is handed to the notifier and no directory is marked; if it
    was not marked before it is not marked after, so the next call walks
    it again (the callback is invoked on it once more). *)
Theorem WatchDirectory_hidden_root E dir w name readErr entries :
  lstatTree E dir = Directory name readErr entries →
  hidden {| Name := name; IsDir := true |} = true →
  notifierWatches (WatchDirectory E dir w) = notifierWatches w ∧
  watchedDirectories (WatchDirectory E dir w) = watchedDirectories w ∧
  (readErr = None → WatchDirectory E dir w = w) ∧
  (watched w dir = false →
     watched (WatchDirectory E dir w) dir = false ∧
     (readErr = None →
        Walk (traced (visit E dir)) dir (lstatTree E dir)
             (WatchDirectory E dir w, [])
        = (None, (WatchDirectory E dir w,
                  [ (dir, Entry {| Name := name; IsDir := true |}) ])))).
Proof.
  intros Ht Hh.
  assert (Hwalk : readErr = None →
            ∀ s, walk (visit E dir) dir (lstatTree E dir) s = (Some SkipDir, s)).
  { intros -> s. rewrite Ht. cbn [walk visit IsDir]. rewrite Hh. done. }
  assert (Hsame : notifierWatches (WatchDirectory E dir w) = notifierWatches w ∧
                  watchedDirectories (WatchDirectory E dir w)
                  = watchedDirectories w ∧
                  (readErr = None → WatchDirectory E dir w = w)).
  { unfold WatchDirectory. destruct (watched w dir); [done|].
    unfold Walk. destruct readErr as [err|].
    - rewrite Ht. simpl. done.
    - rewrite Hwalk by done. done. }
  destruct Hsame as (Hn & Hm & Hid). repeat split; try done.
  - unfold watched in *. by rewrite Hm.
  - intros ->. rewrite Hid by done. unfold Walk. rewrite Ht.
    cbn [walk]. unfold traced. cbn [fst snd visit IsDir negb].
    rewrite Hh. done.
Qed.

End InstallerClaims.

Example WatchDirectory_treeA :
  notifierWatches (watchDirectories [ (envA, "/src/a"); (envA, "/src/a") ] watcher0)
  = [ "/src/a"; "/src/a/locked"; "/src/a/sub" ] ∧
  Error (watchDirectories [ (envA, "/src/a"); (envA, "/src/a") ] watcher0)
  = [ "Error watching /src/a/locked: permission denied" ].
Proof. split; vm_compute; reflexivity. Qed.

Lemma WatchDirectory_registers_once_witness :
  NoDup (notifierWatches
           (watchDirectories [ (envA, "/src/a"); (envA, "/src/a") ] watcher0)) ∧
  ∃ w', visit envA "/src/a" "/src/a/locked"
          (Entry {| Name := "locked"; IsDir := true |}) watcher0 = (None, w') ∧
        watched w' "/src/a/locked" = true ∧
        notifierWatches w' = notifierWatches watcher0 ++ [ "/src/a/locked" ] ∧
        Error w' = Error watcher0
                   ++ [ "Error watching " +:+ "/src/a/locked" +:+ ": "
                        +:+ "permission denied" ].
Proof.
  destruct WatchDirectory_registers_once as (Honce & _ & _ & Hfail).
  split; [apply Honce|].
  apply Hfail; vm_compute; reflexivity.
Defined.

Lemma WatchDirectory_skips_hidden_witness :
  visit envA "/src/a" "/src/a/.git"
    (Entry {| Name := ".git"; IsDir := true |}) watcher0
  = (Some SkipDir, watcher0) ∧
  Walk (traced (visit envA "/src/a")) "/src/a" (prune treeA) (watcher0, [])
  = Walk (traced (visit envA "/src/a")) "/src/a" treeA (watcher0, []).
Proof.
  destruct (WatchDirectory_skips_hidden envA "/src/a") as (Hskip & _ & Hprune & _).
  split; [apply Hskip; vm_compute; reflexivity|apply Hprune].
Defined.

Example WatchDirectory_treeA_visits :
  fst <$> snd (snd (Walk (traced (visit envA "/src/a")) "/src/a" treeA
                      (watcher0, [])))
  = [ "/src/a"; "/src/a/a.go"; "/src/a/.git"; "/src/a/locked"; "/src/a/sub";
      "/src/a/sub/s.go" ].
Proof. vm_compute. reflexivity. Qed.

Lemma WatchDirectory_hidden_root_witness :
  notifierWatches (WatchDirectory envA "/src/.cfg" watcher0)
  = notifierWatches watcher0 ∧
  watchedDirectories (WatchDirectory envA "/src/.cfg" watcher0)
  = watchedDirectories watcher0 ∧
  watched (WatchDirectory envA "/src/.cfg" watcher0) "/src/.cfg" = false.
Proof.
  destruct (WatchDirectory_hidden_root envA "/src/.cfg" watcher0 ".cfg" None
              [ Directory "x" None [] ] eq_refl eq_refl)
    as (Hn & Hm & _ & Hagain).
  split; [exact Hn|]. split; [exact Hm|].
  apply Hagain. vm_compute. reflexivity.
Defined.

Section BuilderClaims.
Variable E : Env.
Implicit Types (w : Watcher) (p q : string).

Lemma filter_none {A} (P : A → Prop) `{!∀ x, Decision (P x)} (l : list A) :
  Forall (fun x => ¬ P x) l → filter P l = [].
Proof.
  induction 1 as [|x l Hx _ IH]; [done|].
  by rewrite filter_cons_False.
Qed.

Lemma registry_one_entry (m : gmap string build.Package) p :
  is_Some (m !! p) →
  length (filter (fun kv => fst kv = p) (map_to_list m)) = 1.
Proof.
  intros [pkg Hp].
  rewrite <-(map_to_list_delete m p pkg Hp).
  rewrite filter_cons_True by done. simpl. f_equal.
  rewrite filter_none; [done|].
  apply Forall_forall. intros [k v] Hkv%elem_of_map_to_list. simpl.
  intros ->. by rewrite lookup_delete_eq in Hkv.
Qed.

(** A call leaves an entry under [p] when the resolver finds the package
    and returns it under the import path it was asked for. *)
Lemma WatchImportPath_registers n p w w1 pkg :
  p ≠ "C" →
  build_Import E p (workingDirectory w) = inl pkg →
  build.ImportPath pkg = p →
  WatchImportPath E n p w = Some w1 →
  is_Some (Packages w1 !! p).
Proof.
  intros HC Hres Hname. destruct n as [|n]; [done|].
  cbn [WatchImportPath]. rewrite decide_False by done.
  destruct (Packages w !! p) as [old|] eqn:Hp.
  { intros [= <-]. by rewrite Hp. }
  rewrite Hres.
  destruct (foldl _ _ _) as [w2|] eqn:Hfold; simpl; [|done].
  intros [= <-].
  destruct (rewatch_sameRegistry E (rangePackages E (Packages w2)) w2)
    as [-> _].
  eapply (watchAll_preserves E (fun w => is_Some (Packages w !! p)));
    [..|exact Hfold]; try done.
  - intros w' pkg' H. simpl. rewrite lookup_insert. by case_decide.
  - intros w' dir H. by destruct (WatchDirectory_sameRegistry E dir w') as [-> _].
  - simpl. by rewrite Hname, lookup_insert_eq.
Qed.

(** Every watcher the program builds keeps its directory index keyed by
    the directories of its packages. *)
Lemma watchAll_indexedByDir n ps wd nf w' :
  watchAll E n ps (initial wd nf) = Some w' → indexedByDir w'.
Proof.
  apply (watchAll_preserves E indexedByDir); try done.
  - intros w pkg Hw d pkg'. simpl.
    intros [[<- <-]|[_ ?]]%lookup_insert_Some; [done|by apply Hw].
  - intros w dir Hw d pkg.
    destruct (WatchDirectory_sameRegistry E dir w) as (_ & -> & _).
    apply Hw.
Qed.

(** C5: when the resolver fails on [p], [WatchImportPath p] registers
    nothing, watches nothing, sends one error that names [p] and the
    resolver's error, and returns, so the loop it was called from goes on
    with the remaining import paths. *)
Theorem WatchImportPath_resolution_failure n p w err rest :
  p ≠ "C" → Packages w !! p = None →
  build_Import E p (workingDirectory w) = inr err →
  ∃ w', WatchImportPath E (S n) p w = Some w' ∧
        Packages w' = Packages w ∧ DirPackages w' = DirPackages w ∧
        watchedDirectories w' = watchedDirectories w ∧
        notifierWatches w' = notifierWatches w ∧
        Error w' = Error w ++ [ "Failed to find import path " +:+ p +:+
                                " with error " +:+ err ] ∧
        watchAll E (S n) (p :: rest) w = watchAll E (S n) rest w'.
Proof.
  intros HC Hp Hres. eexists.
  assert (Hrun : WatchImportPath E (S n) p w
                 = Some (sendError ("Failed to find import path " +:+ p +:+
                                    " with error " +:+ err) (noteImport p w))).
  { cbn [WatchImportPath]. by rewrite decide_False, Hp, Hres. }
  split; [exact Hrun|]. repeat split.
  unfold watchAll. cbn [foldl mbind option_bind]. by rewrite Hrun.
Qed.

End BuilderClaims.

Lemma envCycle_sound q wd pkg :
  build_Import envCycle q wd = inl pkg →
  build.ImportPath pkg = q ∧ q ∈ ({[ "A"; "B" ]} : gset string).
Proof.
  simpl. repeat case_decide; intros [= <-]; subst; split; try done; set_solver.
Defined.

Lemma WatchImportPath_resolution_failure_witness :
  ∃ w', WatchImportPath envA 1 "no/such/pkg" watcher0 = Some w' ∧
        Packages w' = Packages watcher0 ∧
        DirPackages w' = DirPackages watcher0 ∧
        Error w' = [ "Failed to find import path no/such/pkg with error cannot find package" ] ∧
        watchAll envA 1 [ "no/such/pkg"; "C" ] watcher0 = watchAll envA 1 [ "C" ] w'.
Proof.
  destruct (WatchImportPath_resolution_failure envA 0 "no/such/pkg" watcher0
              "cannot find package" [ "C" ])
    as (w' & Hrun & HP & HD & _ & _ & HE & Hrest); [done|done|done|].
  exists w'. repeat split; try done.
Defined.

(** ** Construction *)

(** C8: with an empty working-directory argument [NewWatcher] takes the
    process's current directory, and ["/"] when that cannot be had; an
    argument that is not empty is taken as it is; and when the notifier
    cannot be opened, [NewWatcher] returns no watcher and that error. *)
Theorem NewWatcher_construction (os : OS) (importPaths : list string) :
  (∀ n cwd, fsnotify_NewWatcher os = inl n → os_Getwd os = inl cwd →
            ∃ w, NewWatcher os importPaths "" = (Some w, None) ∧
                 workingDirectory w = cwd) ∧
  (∀ n e, fsnotify_NewWatcher os = inl n → os_Getwd os = inr e →
          ∃ w, NewWatcher os importPaths "" = (Some w, None) ∧
               workingDirectory w = "/") ∧
  (∀ n wd, fsnotify_NewWatcher os = inl n → wd ≠ "" →
           ∃ w, NewWatcher os importPaths wd = (Some w, None) ∧
                workingDirectory w = wd) ∧
  (∀ wd err, fsnotify_NewWatcher os = inr err →
             NewWatcher os importPaths wd = (None, Some err)).
Proof.
  unfold NewWatcher. repeat split.
  - intros n cwd -> ->. by eexists.
  - intros n e -> ->. by eexists.
  - intros n wd -> Hwd. rewrite decide_False by done. by eexists.
  - intros wd err ->. done.
Qed.

Lemma NewWatcher_construction_witness :
  (∃ w, NewWatcher {| os_Getwd := inr "getwd: no such file or directory";
                      fsnotify_NewWatcher := inl fsnotify.opened |}
          [ "A" ] "" = (Some w, None) ∧ workingDirectory w = "/") ∧
  NewWatcher {| os_Getwd := inl "/home/u";
                fsnotify_NewWatcher := inr "too many open files" |}
    [ "A" ] "" = (None, Some "too many open files").
Proof.
  split.
  - apply (proj1 (proj2 (NewWatcher_construction _ [ "A" ]))
             fsnotify.opened "getwd: no such file or directory");
      reflexivity.
  - apply (proj2 (proj2 (proj2 (NewWatcher_construction _ [ "A" ])))).
    reflexivity.
Defined.

(** ** Lifecycle *)

Section Lifecycle.
Variable closeErr : option string.
Implicit Types (w : Watcher) (s : System).

Lemma WatchImportPath_lifecycle E n p w w' :
  WatchImportPath E n p w = Some w' →
  done w' = done w ∧
  fsnotify.closed (fsnotify_ w') = fsnotify.closed (fsnotify_ w) ∧
  Event_ w' = Event_ w.
Proof.
  apply (WatchImportPath_preserves E
           (fun w' => done w' = done w ∧
                      fsnotify.closed (fsnotify_ w')
                      = fsnotify.closed (fsnotify_ w) ∧
                      Event_ w' = Event_ w)); try done.
  intros w1 dir (H1 & H2 & H3).
  destruct (WatchDirectory_sameRegistry E dir w1)
    as (_ & _ & _ & _ & Hd & He & Hc).
  repeat split; congruence.
Qed.

Lemma step_blocked closed0 s s' :
  blocked closed0 s → step closeErr s s' → blocked closed0 s'.
Proof.
  intros (Hd & Hc & Hcl & Hpx) Hstep.
  destruct Hstep; simpl in *; unfold blocked; simpl.
  - done.
  - done.
  - destruct (WatchImportPath_lifecycle _ _ _ _ _ H) as (-> & -> & _). done.
  - split; [done|]. split; [done|]. split; [by right|done].
  - congruence.
  - destruct Hcl; discriminate.
Qed.

Lemma rtc_blocked closed0 s s' :
  blocked closed0 s → rtc (step closeErr) s s' → blocked closed0 s'.
Proof.
  intros Hs Hrun. induction Hrun as [|s1 s2 s3 H12 _ IH]; [done|].
  apply IH. by eapply step_blocked.
Qed.

(** C1, as the code has it: [NewWatcher] never makes the [done]
    channel, so in every state the system reaches from the watcher it
    returns, a call of [Close] has not got past [w.done <- true]: it has
    not returned, the notifier is not closed, and [proxyEvent] has not
    returned. *)
Theorem Close_never_returns os importPaths wd w s :
  NewWatcher os importPaths wd = (Some w, None) →
  rtc (step closeErr) (started w) s →
  done w = nilChan ∧
  (closer s = NotCalled ∨ closer s = SendingDone) ∧
  proxy s ≠ ProxyReturned ∧
  fsnotify.closed (fsnotify_ (watcher s)) = fsnotify.closed (fsnotify_ w).
Proof.
  intros Hnew Hrun.
  assert (Hd : done w = nilChan).
  { unfold NewWatcher in Hnew.
    destruct (fsnotify_NewWatcher os); by simplify_eq. }
  split; [done|].
  destruct (rtc_blocked (fsnotify.closed (fsnotify_ w)) (started w) s)
    as (_ & ? & ? & ?); [|done|done].
  split; [done|]. split; [done|]. split; [by left|done].
Qed.

(** What the [done] channel is for: in any system, whether [done] was
    made or not, once [Close] has got past its send [proxyEvent] has
    returned, and from then on no event is published. *)
Lemma step_stopped s s' : stopped s → step closeErr s s' → stopped s'.
Proof.
  unfold stopped. intros Hs Hstep. destruct Hstep; simpl in *.
  - intros Hc. by specialize (Hs Hc).
  - intros Hc. by specialize (Hs Hc).
  - done.
  - intros [?|[? ?]]; done.
  - done.
  - intros _. apply Hs. by left.
Qed.

Lemma rtc_stopped s s' : stopped s → rtc (step closeErr) s s' → stopped s'.
Proof.
  intros Hs Hrun. induction Hrun as [|s1 s2 s3 H12 _ IH]; [done|].
  apply IH. by eapply step_stopped.
Qed.

Lemma step_returned_silent s s' :
  proxy s = ProxyReturned → step closeErr s s' →
  proxy s' = ProxyReturned ∧ Event_ (watcher s') = Event_ (watcher s).
Proof.
  intros Hp Hstep. destruct Hstep; simpl in *; try done.
  by destruct (WatchImportPath_lifecycle _ _ _ _ _ H) as (_ & _ & ->).
Qed.

Lemma Close_returned_no_more_events w s s' err :
  rtc (step closeErr) (started w) s →
  closer s = Returned err →
  rtc (step closeErr) s s' →
  Event_ (watcher s') = Event_ (watcher s).
Proof.
  intros Hreach Hret Hrun.
  assert (Hp : proxy s = ProxyReturned).
  { apply (rtc_stopped (started w) s); [by intros [?|[? ?]]|done|].
    right. by eexists. }
  clear Hreach Hret. induction Hrun as [|s1 s2 s3 H12 _ IH]; [done|].
  destruct (step_returned_silent _ _ Hp H12) as [Hp2 <-]. by apply IH.
Qed.

End Lifecycle.

Lemma Close_never_returns_witness :
  rtc (step None) (started watcher0)
    {| watcher := publish eventX watcher0; proxy := Selecting;
       closer := SendingDone |} ∧
  closer {| watcher := publish eventX watcher0; proxy := Selecting;
            closer := SendingDone |} = SendingDone ∧
  fsnotify.closed (fsnotify_ (publish eventX watcher0)) = false.
Proof.
  assert (Hrun : rtc (step None) (started watcher0)
                   {| watcher := publish eventX watcher0; proxy := Selecting;
                      closer := SendingDone |}).
  { eapply rtc_l; [apply Close_called|].
    eapply rtc_l; [apply (proxyEvent_receives None watcher0 SendingDone (FileEvent eventX))|].
    eapply rtc_l; [apply proxyEvent_publishes|]. apply rtc_refl. }
  split; [exact Hrun|].
  destruct (Close_never_returns None osOk [] "/" watcher0 _ eq_refl Hrun)
    as (_ & _ & _ & Hc).
  split; [reflexivity|exact Hc].
Defined.

(** * Further properties *)

(** ** What [WatchDirectory] registers *)

Section InstallerEffect.
Variable E : Env.
Implicit Types (w s : Watcher) (t : FileTree).

Lemma watched_markAll new w w' p :
  watchedDirectories w' = markAll new (watchedDirectories w) →
  watched w' p = true ↔ watched w p = true ∨ p ∈ new.
Proof.
  unfold watched. intros ->. generalize (watchedDirectories w). clear w.
  induction new as [|q new IH]; intros m; simpl.
  { split; [by left|]. intros [?|?%elem_of_nil]; done. }
  rewrite IH, lookup_insert, elem_of_cons.
  case_decide as Hq; simpl; [subst q|]; naive_solver.
Qed.

Lemma registers_same w w' :
  notifierWatches w' = notifierWatches w →
  watchedDirectories w' = watchedDirectories w →
  registers w w' [].
Proof. intros Hn Hm. split; [by rewrite app_nil_r|done]. Qed.

Lemma registers_trans w1 w2 w3 n1 n2 :
  registers w1 w2 n1 → registers w2 w3 n2 → registers w1 w3 (n1 ++ n2).
Proof.
  intros [Ha1 Hb1] [Ha2 Hb2]. split.
  - by rewrite Ha2, Ha1, app_assoc.
  - rewrite Hb2, Hb1. unfold markAll. by rewrite foldl_app.
Qed.

(** The callback hands a path to the notifier exactly when it is shown a
    directory that is not hidden and not marked yet, and it returns [nil]
    or, for a hidden directory, [SkipDir]. *)
Lemma visit_registers dir path a s :
  ∃ new, registers s (snd (visit E dir path a s)) new ∧
         (∀ p, p ∈ new ↔
               p = path ∧ watched s p = false ∧
               ∃ info, a = Entry info ∧ IsDir info = true ∧
                       hidden info = false) ∧
         (fst (visit E dir path a s) = None ∨
          fst (visit E dir path a s) = Some SkipDir ∧
          ∃ info, a = Entry info ∧ IsDir info = true ∧ hidden info = true).
Proof.
  assert (Hnone : ∀ (P : string → Prop), (∀ p, P p → False) →
                    ∀ p, p ∈ @nil string ↔ P p).
  { intros P HP p. split; [by intros ?%elem_of_nil|]. intros H. by apply HP in H. }
  destruct a as [info|info err]; simpl.
  - destruct (IsDir info) eqn:Hd; simpl.
    + destruct (hidden info) eqn:Hh; simpl.
      { exists []. split; [by apply registers_same|]. split.
        - apply Hnone. intros p (_ & _ & i & [= <-] & _ & ?). congruence.
        - right. split; [done|]. by exists info. }
      destruct (watched s path) eqn:Hw; simpl.
      { exists []. split; [by apply registers_same|]. split; [|by left].
        apply Hnone. intros p (-> & ? & _). congruence. }
      exists [ path ]. split; [|split; [|by left]].
      * split; by destruct (fsnotify_Watch E path).
      * intros p. rewrite list_elem_of_singleton. split.
        -- intros ->. split; [done|]. split; [done|]. by exists info.
        -- by intros [-> _].
    + exists []. split; [by apply registers_same|]. split; [|by left].
      apply Hnone. intros p (_ & _ & i & [= <-] & ? & _). congruence.
  - exists []. split; [by apply registers_same|]. split; [|by left].
    apply Hnone. by intros p (_ & _ & i & ? & _).
Qed.

Lemma walkEffect_seq d1 d2 s1 s2 s3 :
  walkEffect d1 s1 s2 → walkEffect d2 s2 s3 → walkEffect (d1 ++ d2) s1 s3.
Proof.
  intros (n1 & Hr1 & Hn1) (n2 & Hr2 & Hn2).
  exists (n1 ++ n2). split; [by eapply registers_trans|].
  intros p. rewrite !elem_of_app, Hn1, Hn2.
  pose proof (watched_markAll n1 s1 s2 p (proj2 Hr1)) as Hw.
  rewrite Hn1 in Hw.
  destruct (watched s1 p) eqn:H1, (watched s2 p) eqn:H2; naive_solver.
Qed.

Lemma walk_visit_effect dir t :
  ∀ path s,
    walkEffect (visibleDirs path t) s (snd (walk (visit E dir) path t s)) ∧
    (fst (walk (visit E dir) path t s) = None ∨
     fst (walk (visit E dir) path t s) = Some SkipDir ∧ isFile t = false).
Proof.
  induction t as [n e|n|n r es IH] using FileTree_ind; intros path s.
  - simpl. split; [|by left]. exists []. split; [by apply registers_same|].
    intros p. split; [by intros ?%elem_of_nil|by intros [?%elem_of_nil _]].
  - simpl. split; [|by left]. exists []. split; [by apply registers_same|].
    intros p. split; [by intros ?%elem_of_nil|by intros [?%elem_of_nil _]].
  - cbn [walk visibleDirs]. destruct r as [err|].
    { simpl. split; [|by left]. exists []. split; [by apply registers_same|].
      intros p. split; [by intros ?%elem_of_nil|by intros [?%elem_of_nil _]]. }
    destruct (visit_registers dir path (Entry {| Name := n; IsDir := true |}) s)
      as (new & Hreg & Hnew & Hret).
    destruct (visit E dir path _ s) as [err1 s1] eqn:Hv. cbn [fst snd] in *.
    destruct (hidden {| Name := n; IsDir := true |}) eqn:Hh.
    { destruct Hret as [->|[-> _]].
      - exfalso. simpl in Hv. rewrite Hh in Hv. by simplify_eq.
      - cbn [fst snd]. split; [|by right]. exists new. split; [done|].
        intros p. rewrite Hnew. split; [|by intros [?%elem_of_nil _]].
        intros (_ & _ & i & [= <-] & _ & ?). congruence. }
    destruct Hret as [->|[_ (i & [= <-] & _ & ?)]]; [|congruence].
    assert (Hroot : walkEffect [ path ] s s1).
    { exists new. split; [done|]. intros p. rewrite Hnew, list_elem_of_singleton.
      split; [naive_solver|]. intros [-> ?]. split; [done|]. split; [done|].
      by eexists. }
    clear Hv Hreg Hnew new.
    assert (Hes : ∀ s1,
              fst (walkEntries (walk (visit E dir)) path es s1) = None ∧
              walkEffect
                (concat (map (fun e =>
                                visibleDirs (filepath.Join path (entryName e)) e)
                             es))
                s1 (snd (walkEntries (walk (visit E dir)) path es s1))).
    { clear Hroot s1. induction IH as [|e es He _ IHes]; intros s1.
      - simpl. split; [done|]. exists []. split; [by apply registers_same|].
        intros p. split; [by intros ?%elem_of_nil|by intros [?%elem_of_nil _]].
      - cbn [walkEntries map concat].
        destruct (He (filepath.Join path (entryName e)) s1) as [Heff Hr].
        destruct (walk (visit E dir) _ e s1) as [r s2]. cbn [fst snd] in *.
        destruct (IHes s2) as [Hnone Hrest].
        assert (Hgo : (fst (walkEntries (walk (visit E dir)) path es s2) = None ∧
                  walkEffect
                    (visibleDirs (filepath.Join path (entryName e)) e ++
                     concat (map (fun e0 =>
                                    visibleDirs
                                      (filepath.Join path (entryName e0)) e0)
                                 es))
                    s1 (snd (walkEntries (walk (visit E dir)) path es s2)))).
        { split; [done|]. by eapply walkEffect_seq. }
        destruct Hr as [->|[-> ->]]; exact Hgo. }
    destruct (Hes s1) as [Hnone Hrest].
    destruct (walkEntries _ path es s1) as [r2 s2]. cbn [fst snd] in *.
    subst r2. cbn [fst snd]. split; [|by left].
    apply (walkEffect_seq [ path ] _ s s1 s2); done.
Qed.

End InstallerEffect.

Section InstallerExtras.
Variable E : Env.
Implicit Types (w s : Watcher) (t : FileTree).

Lemma WatchDirectory_effect dir w :
  watched w dir = false →
  ∃ new, registers w (WatchDirectory E dir w) new ∧ NoDup new ∧
         ∀ p, p ∈ new ↔
              p ∈ visibleDirs dir (lstatTree E dir) ∧ watched w p = false.
Proof.
  intros Hw.
  destruct (walk_visit_effect E dir (lstatTree E dir) dir w)
    as [(new & Hreg & Hnew) _].
  assert (Hsame : WatchDirectory E dir w
                  = snd (walk (visit E dir) dir (lstatTree E dir) w)).
  { unfold WatchDirectory, Walk. rewrite Hw.
    by destruct (walk (visit E dir) dir (lstatTree E dir) w) as [[[|?]|] ?]. }
  rewrite Hsame. exists new. split; [done|]. split; [|done].
  pose proof (WatchDirectory_extends E dir w) as (new' & Hn' & Hnd & _).
  rewrite Hsame, (proj1 Hreg) in Hn'. by apply app_inv_head in Hn' as ->.
Qed.

(** X1: a call of [WatchDirectory] that does not take the fast path hands
    to the notifier, each once, exactly the directories of the tree that
    are not hidden, whose entries can be read, that are not below a hidden
    or unreadable directory, and that were not marked before; and it marks
    exactly these.  A directory that cannot be read adds nothing to
    them, neither itself nor what is below it. *)
Theorem WatchDirectory_registers_visible dir w :
  watched w dir = false →
  ∃ new, registers w (WatchDirectory E dir w) new ∧ NoDup new ∧
         ∀ p, p ∈ new ↔
              p ∈ visibleDirs dir (lstatTree E dir) ∧ watched w p = false.
Proof. apply WatchDirectory_effect. Qed.

(** X2: calling [WatchDirectory] again on the same directory, with the
    tree and the notifier unchanged, hands nothing to the notifier and
    marks nothing. *)
Theorem WatchDirectory_twice dir w :
  registers (WatchDirectory E dir w)
            (WatchDirectory E dir (WatchDirectory E dir w)) [].
Proof.
  destruct (watched w dir) eqn:Hw.
  { unfold WatchDirectory. rewrite Hw. simpl. rewrite Hw.
    by apply registers_same. }
  destruct (WatchDirectory_effect dir w Hw) as (new & Hreg & _ & Hnew).
  set (w1 := WatchDirectory E dir w) in *.
  destruct (watched w1 dir) eqn:Hw1.
  { unfold WatchDirectory at 1. rewrite Hw1. by apply registers_same. }
  destruct (WatchDirectory_effect dir w1 Hw1)
    as (new2 & Hreg2 & _ & Hnew2).
  assert (new2 = []) as ->; [|done].
  apply elem_of_nil_inv. intros p [Hvis Hp1]%Hnew2.
  assert (watched w1 p = true); [|congruence].
  apply (watched_markAll new w w1 p (proj2 Hreg)).
  destruct (watched w p) eqn:Hp; [by left|right]. by apply Hnew.
Qed.

Lemma visit_Error_grows dir path a w :
  ∃ more, Error (snd (visit E dir path a w)) = Error w ++ more.
Proof.
  destruct a as [info|info err]; simpl; [|by eexists].
  destruct (IsDir info); simpl; [|by exists []; rewrite app_nil_r].
  destruct (hidden info); simpl; [by exists []; rewrite app_nil_r|].
  destruct (watched w path); simpl; [by exists []; rewrite app_nil_r|].
  destruct (fsnotify_Watch E path); simpl;
    [by eexists|by exists []; rewrite app_nil_r].
Qed.

Lemma WatchDirectory_Error_grows dir w :
  ∃ more, Error (WatchDirectory E dir w) = Error w ++ more.
Proof.
  unfold WatchDirectory. destruct (watched w dir).
  { exists []. by rewrite app_nil_r. }
  apply (Walk_preserves (visit E dir)
           (fun s => ∃ more, Error s = Error w ++ more)).
  - intros path a s [more Hs].
    destruct (visit_Error_grows dir path a s) as [more' ->].
    exists (more ++ more'). by rewrite Hs, app_assoc.
  - exists []. by rewrite app_nil_r.
Qed.

(** X3: [WatchDirectory] leaves both registry indices, the working
    directory, the published events and the [done] channel alone, makes no
    resolver call and does not close the notifier; errors already sent
    stay, in order. *)
Theorem WatchDirectory_frame dir w :
  sameRegistry w (WatchDirectory E dir w) ∧
  Error w `prefix_of` Error (WatchDirectory E dir w).
Proof.
  split; [apply WatchDirectory_sameRegistry|].
  destruct (WatchDirectory_Error_grows dir w) as [more ->].
  by apply prefix_app_r.
Qed.

(** X4: when the root passed to [WatchDirectory] is a regular file,
    nothing happens and no error is sent; when [Lstat] fails on it or it
    cannot be read, exactly one error naming the directory and the cause
    is sent.  In both cases nothing is handed to the notifier and the root
    is not marked, so a later call tries again. *)
Theorem WatchDirectory_bad_root dir w :
  watched w dir = false →
  (∀ name, lstatTree E dir = File name → WatchDirectory E dir w = w) ∧
  (∀ err, rootError (lstatTree E dir) = Some err →
          WatchDirectory E dir w
          = sendError ("Got error when walking directory " +:+ dir +:+
                       " with entry " +:+ dir +:+ " and error " +:+ err) w) ∧
  (isFile (lstatTree E dir) = true ∨ is_Some (rootError (lstatTree E dir)) →
   watched (WatchDirectory E dir w) dir = false ∧
   notifierWatches (WatchDirectory E dir w) = notifierWatches w).
Proof.
  intros Hw. unfold WatchDirectory, Walk. rewrite Hw.
  split; [|split].
  - intros name ->. done.
  - intros err Herr.
    destruct (lstatTree E dir) as [n e|n|n [e|] es]; by simplify_eq/=.
  - intros Hbad.
    destruct (lstatTree E dir) as [n e|n|n [e|] es]; simpl in *; try done.
    destruct Hbad as [?|[? ?]]; done.
Qed.

End InstallerExtras.

Lemma WatchDirectory_registers_visible_witness :
  ∃ new, registers watcher0 (WatchDirectory envA "/src/a" watcher0) new ∧
         NoDup new ∧
         ∀ p, p ∈ new ↔ p ∈ [ "/src/a"; "/src/a/locked"; "/src/a/sub" ] ∧
                        watched watcher0 p = false.
Proof.
  apply (WatchDirectory_registers_visible envA "/src/a" watcher0).
  reflexivity.
Defined.

(** A subdirectory that cannot be read: the walk reports it, hands
    neither it nor what is below it to the notifier, marks neither, and
    goes on with the next entry. *)
Example WatchDirectory_unreadable_subdirectory :
  visibleDirs "/d" treeLocked = [ "/d"; "/d/v" ] ∧
  notifierWatches (WatchDirectory envLocked "/d" watcher0) = [ "/d"; "/d/v" ] ∧
  watched (WatchDirectory envLocked "/d" watcher0) "/d/u" = false ∧
  watched (WatchDirectory envLocked "/d" watcher0) "/d/u/below" = false ∧
  Error (WatchDirectory envLocked "/d" watcher0)
  = [ "Got error when walking directory /d with entry /d/u and error permission denied" ].
Proof. repeat split; vm_compute; reflexivity. Qed.

Lemma WatchDirectory_bad_root_witness :
  WatchDirectory envA "/nowhere" watcher0
  = sendError "Got error when walking directory /nowhere with entry /nowhere and error no such file or directory"
      watcher0.
Proof.
  apply (proj1 (proj2 (WatchDirectory_bad_root envA "/nowhere" watcher0 eq_refl))).
  reflexivity.
Defined.

(** ** What [WatchImportPath] registers *)

Section BuilderExtras.
Variable E : Env.
Implicit Types (w : Watcher) (p q : string).

(** As [WatchImportPath_preserves], with what the code knows at each
    step. *)
Section Guarded.
Variable I : Watcher → Prop.
Hypothesis I_noteImport :
  ∀ w p, p ≠ "C" → Packages w !! p = None → I w → I (noteImport p w).
Hypothesis I_sendError : ∀ w msg, I w → I (sendError msg w).
Hypothesis I_register :
  ∀ w p pkg, build_Import E p (workingDirectory w) = inl pkg →
             I w → I (register pkg w).
Hypothesis I_WatchDirectory : ∀ w dir, I w → I (WatchDirectory E dir w).

Lemma WatchImportPath_guarded n :
  ∀ p w w', I w → WatchImportPath E n p w = Some w' → I w'.
Proof.
  induction n as [|n IH]; intros p w w' Hw; [done|].
  cbn [WatchImportPath]. case_decide as HC; [by intros [= <-]|].
  destruct (Packages w !! p) eqn:Hp; [by intros [= <-]|].
  destruct (build_Import E p (workingDirectory w)) as [pkg|err] eqn:Hres.
  - pose proof (watchAll_preserves_step E I n IH (build.Imports pkg)
                  (register pkg (noteImport p w))) as Hall.
    unfold watchAll in Hall.
    destruct (foldl _ _ _) as [w2|]; simpl; [|done].
    intros [= <-]. apply (rewatch_preserves E I I_WatchDirectory).
    eapply Hall; [|done].
    apply (I_register _ p); [done|]. by apply I_noteImport.
  - intros [= <-]. by apply I_sendError, I_noteImport.
Qed.

Lemma watchAll_guarded n ps w w' :
  I w → watchAll E n ps w = Some w' → I w'.
Proof. apply watchAll_preserves_step, WatchImportPath_guarded. Qed.

End Guarded.

(** X5: the pseudo-package ["C"] is never passed to the resolver. *)
Theorem WatchImportPath_never_resolves_C n ps w w' :
  watchAll E n ps w = Some w' →
  "C" ∉ importCalls w → "C" ∉ importCalls w'.
Proof.
  intros Hrun Hw. revert Hrun.
  apply (watchAll_guarded (fun w => "C" ∉ importCalls w)); try done.
  - intros w1 p HC _ H1. simpl. rewrite elem_of_app, list_elem_of_singleton.
    naive_solver.
  - intros w1 dir H1.
    by destruct (WatchDirectory_sameRegistry E dir w1) as (_ & _ & -> & _).
Qed.

(** X6: [WatchImportPath] only adds: no import path and no directory
    leaves an index, resolver calls, errors sent and directories handed to
    the notifier stay, in order, and the working directory, the published
    events, the [done] channel and the state of the notifier are as
    before. *)
Theorem WatchImportPath_only_adds n p w w' :
  WatchImportPath E n p w = Some w' →
  dom (Packages w) ⊆ dom (Packages w') ∧
  dom (DirPackages w) ⊆ dom (DirPackages w') ∧
  importCalls w `prefix_of` importCalls w' ∧
  Error w `prefix_of` Error w' ∧
  notifierWatches w `prefix_of` notifierWatches w' ∧
  workingDirectory w' = workingDirectory w ∧
  Event_ w' = Event_ w ∧ done w' = done w ∧
  fsnotify.closed (fsnotify_ w') = fsnotify.closed (fsnotify_ w).
Proof.
  apply (WatchImportPath_preserves E
    (fun w' =>
       dom (Packages w) ⊆ dom (Packages w') ∧
       dom (DirPackages w) ⊆ dom (DirPackages w') ∧
       importCalls w `prefix_of` importCalls w' ∧
       Error w `prefix_of` Error w' ∧
       notifierWatches w `prefix_of` notifierWatches w' ∧
       workingDirectory w' = workingDirectory w ∧
       Event_ w' = Event_ w ∧ done w' = done w ∧
       fsnotify.closed (fsnotify_ w') = fsnotify.closed (fsnotify_ w))).
  - intros w1 q (? & ? & ? & ? & ? & ? & ? & ? & ?). simpl.
    repeat split; try done. by apply prefix_app_r.
  - intros w1 msg (? & ? & ? & ? & ? & ? & ? & ? & ?). simpl.
    repeat split; try done. by apply prefix_app_r.
  - intros w1 pkg (? & ? & ? & ? & ? & ? & ? & ? & ?). simpl.
    rewrite !dom_insert_L. repeat split; try done; set_solver.
  - intros w1 dir (HP & HD & HI & HE & HN & HW & HEv & Hdone & Hcl).
    destruct (WatchDirectory_sameRegistry E dir w1)
      as (-> & -> & -> & -> & -> & -> & ->).
    destruct (WatchDirectory_Error_grows E dir w1) as (more & ->).
    destruct (WatchDirectory_extends E dir w1) as (new & -> & _).
    repeat split; try done; by apply prefix_app_r.
  - repeat split; done.
Qed.

(** X7: in every watcher the program builds from a new one, the
    import-path index is keyed by [pkg.ImportPath] and the directory index
    by [pkg.Dir], every package of the import-path index has an entry for
    its directory, and every indexed package was returned by the
    resolver. *)
Theorem watchAll_registryInv n ps wd nf w' :
  watchAll E n ps (initial wd nf) = Some w' → registryInv E w'.
Proof.
  apply (watchAll_guarded (registryInv E)).
  - done.
  - done.
  - intros w p pkg Hres (HP & HD & HB & HR).
    unfold registryInv, indexedByDir in *. simpl.
    split; [|split; [|split]].
    + intros k pkg' [[<- <-]|[_ ?]]%lookup_insert_Some; [done|by apply HP].
    + intros d pkg' [[<- <-]|[_ ?]]%lookup_insert_Some; [done|by apply HD].
    + intros k pkg' Hk. rewrite lookup_insert. case_decide; [done|].
      apply lookup_insert_Some in Hk as [[_ <-]|[_ Hk]]; [done|].
      by eapply HB.
    + intros k pkg' [[[_ <-]|[_ Hk]]%lookup_insert_Some
                    |[[_ <-]|[_ Hk]]%lookup_insert_Some];
        try (by exists p); eapply HR; eauto.
  - intros w dir (HP & HD & HB & HR).
    unfold registryInv, indexedByDir in *.
    destruct (WatchDirectory_sameRegistry E dir w) as (-> & -> & _ & -> & _).
    done.
  - unfold registryInv, indexedByDir. simpl.
    repeat split; intros *; rewrite ?lookup_empty; naive_solver.
Qed.

Section Closure.
Hypothesis resolver_canonical : canonical E.

Lemma importsRegistered_mono w w' pkg :
  workingDirectory w' = workingDirectory w →
  dom (Packages w) ⊆ dom (Packages w') →
  importsRegistered E w pkg → importsRegistered E w' pkg.
Proof.
  intros Hwd Hdom H i Hi HC Hr. apply Hdom, H; [done..|].
  unfold resolves in *. by rewrite <-Hwd.
Qed.

Lemma addedFrom_dom roots w w' :
  addedFrom E roots w w' → dom (Packages w) ⊆ dom (Packages w').
Proof.
  intros (_ & Hkeep & _) q [pkg Hq]%elem_of_dom.
  apply elem_of_dom. exists pkg. by apply Hkeep.
Qed.

Lemma addedFrom_nil w : addedFrom E [] w w.
Proof.
  split; [done|]. split; [done|]. split; [by left|].
  by intros r ?%elem_of_nil.
Qed.

Lemma addedFrom_app l1 l2 w1 w2 w3 :
  addedFrom E l1 w1 w2 → addedFrom E l2 w2 w3 →
  addedFrom E (l1 ++ l2) w1 w3.
Proof.
  intros H12 H23.
  pose proof (addedFrom_dom _ _ _ H23) as Hdom23.
  destruct H12 as (Hwd1 & Hk1 & Hn1 & Hr1), H23 as (Hwd2 & Hk2 & Hn2 & Hr2).
  split; [congruence|]. split; [auto|]. split.
  - intros q pkg Hq. destruct (Hn2 q pkg Hq) as [H2|(HC & Hres & Hreach & Hcl)].
    + destruct (Hn1 q pkg H2) as [?|(HC & Hres & (r & Hr & Hrtc) & Hcl)];
        [by left|right].
      split; [done|]. split; [done|]. split.
      * exists r. split; [|done]. apply elem_of_app. by left.
      * by eapply importsRegistered_mono.
    + right. rewrite Hwd1 in Hres, Hreach. split; [done|]. split; [done|].
      split; [|done]. destruct Hreach as (r & Hr & Hrtc).
      exists r. split; [|done]. apply elem_of_app. by right.
  - intros r [Hr|Hr]%elem_of_app HC Hres.
    + apply Hdom23. by apply Hr1.
    + apply Hr2; [done..|]. unfold resolves in *. by rewrite Hwd1.
Qed.

Lemma addedFrom_sameRegistry roots w w' w'' :
  addedFrom E roots w w' → sameRegistry w' w'' → addedFrom E roots w w''.
Proof.
  intros (Hwd & Hk & Hn & Hr) (HP & _ & _ & HW & _).
  unfold addedFrom, importsRegistered, resolves in *.
  rewrite HP, HW. done.
Qed.

Lemma watchAll_addedFrom_step n :
  (∀ p w w', WatchImportPath E n p w = Some w' → addedFrom E [ p ] w w') →
  ∀ ps w w', watchAll E n ps w = Some w' → addedFrom E ps w w'.
Proof.
  intros IH ps. unfold watchAll.
  induction ps as [|p ps IHps]; intros w w'; simpl.
  { intros [= <-]. apply addedFrom_nil. }
  destruct (WatchImportPath E n p w) as [w1|] eqn:H1; simpl.
  - intros Hrest. apply (addedFrom_app [ p ] ps w w1 w'); auto.
  - intros Hnone. exfalso. revert Hnone. clear.
    induction ps as [|q ps IHq]; simpl; [done|]. apply IHq.
Qed.

Lemma WatchImportPath_addedFrom n :
  ∀ p w w', WatchImportPath E n p w = Some w' → addedFrom E [ p ] w w'.
Proof.
  induction n as [|n IH]; intros p w w'; [done|].
  cbn [WatchImportPath]. case_decide as HC.
  { intros [= <-]. split; [done|]. split; [done|]. split; [by left|].
    intros r ->%list_elem_of_singleton. done. }
  destruct (Packages w !! p) as [old|] eqn:Hp.
  { intros [= <-]. split; [done|]. split; [done|]. split; [by left|].
    intros r ->%list_elem_of_singleton _ _. apply elem_of_dom. by eexists. }
  destruct (build_Import E p (workingDirectory w)) as [pkg|err] eqn:Hres.
  - pose proof (resolver_canonical _ _ _ Hres) as Hname.
    pose proof (watchAll_addedFrom_step n IH (build.Imports pkg)
                  (register pkg (noteImport p w))) as Hall.
    unfold watchAll in Hall.
    destruct (foldl _ _ _) as [w2|]; simpl; [|done].
    intros [= <-].
    eapply addedFrom_sameRegistry; [|apply rewatch_sameRegistry].
    specialize (Hall w2 eq_refl).
    pose proof (addedFrom_dom _ _ _ Hall) as Hdom.
    destruct Hall as (Hwd & Hk & Hn & Hr). simpl in Hwd, Hk, Hn, Hr.
    rewrite Hname in Hk, Hn.
    split; [done|]. split; [|split].
    + intros q pkg' Hq. apply Hk. rewrite lookup_insert_ne; [done|].
      intros <-. congruence.
    + intros q pkg' Hq.
      destruct (Hn q pkg' Hq) as [H1|(HqC & Hq' & (r & Hr' & Hrtc) & Hcl)].
      * apply lookup_insert_Some in H1 as [[<- <-]|[_ ?]]; [|by left].
        right. split; [done|]. split; [done|]. split.
        -- exists p. split; [by left|apply rtc_refl].
        -- intros i Hi HiC Hires. apply Hr; [done..|].
           unfold resolves in *. simpl. by rewrite <-Hwd.
      * right. split; [done|]. split; [done|]. split; [|done].
        exists p. split; [by left|].
        eapply rtc_l; [|done]. split; [done|]. by exists pkg.
    + intros r ->%list_elem_of_singleton _ _. apply Hdom. simpl.
      rewrite Hname, dom_insert_L. set_solver.
  - intros [= <-]. split; [done|]. split; [done|]. split; [by left|].
    intros r ->%list_elem_of_singleton _ [pkg Hpkg]. congruence.
Qed.

Lemma watchAll_addedFrom n ps w w' :
  watchAll E n ps w = Some w' → addedFrom E ps w w'.
Proof. apply watchAll_addedFrom_step, WatchImportPath_addedFrom. Qed.

(** X8: with a resolver that returns every package under the import path
    it was asked for, a registry that agrees with the resolver and is
    closed under imports stays so through [WatchImportPath p], and [p]
    itself is registered when the resolver finds it. *)
Theorem WatchImportPath_imports_closed n p w w' :
  resolved E w → importsClosed E w →
  WatchImportPath E n p w = Some w' →
  resolved E w' ∧ importsClosed E w' ∧
  (p ≠ "C" → resolves E w p → p ∈ dom (Packages w')).
Proof.
  intros Hres Hcl Hrun.
  pose proof (WatchImportPath_addedFrom n p w w' Hrun) as Hadd.
  pose proof (addedFrom_dom _ _ _ Hadd) as Hdom.
  destruct Hadd as (Hwd & Hk & Hn & Hr).
  split; [|split].
  - intros q pkg Hq. rewrite Hwd.
    destruct (Hn q pkg Hq) as [?|(? & ? & _)]; [by apply Hres|done].
  - intros q pkg Hq.
    destruct (Hn q pkg Hq) as [Hold|(_ & _ & _ & ?)]; [|done].
    eapply importsRegistered_mono; [done..|]. by eapply Hcl.
  - intros HC Hp. apply Hr; [by left|done..].
Qed.

(** X9: with such a resolver, the goroutine that [NewWatcher] starts over
    the initial import paths registers exactly the packages found by
    following imports from them: every import path in the registry is
    reached from an initial one, and every package reached is
    registered. *)
Theorem watchAll_registers_reachable n ps wd nf w' :
  watchAll E n ps (initial wd nf) = Some w' →
  ∀ q, q ∈ dom (Packages w') ↔ ∃ p, p ∈ ps ∧ reaches E wd p q.
Proof.
  intros Hrun q.
  destruct (watchAll_addedFrom n ps _ _ Hrun) as (Hwd & Hk & Hn & Hr).
  simpl in *. split.
  - intros [pkg Hq]%elem_of_dom.
    destruct (Hn q pkg Hq) as [Hold|(HC & Hres & (r & Hr' & Hrtc) & _)].
    { by rewrite lookup_empty in Hold. }
    exists r. split; [done|]. split; [done|]. split; [done|]. by exists pkg.
  - intros (p & Hp & Hrtc & HqC & Hqres).
    revert q Hrtc HqC Hqres.
    apply (rtc_ind_r (fun q => q ≠ "C" →
                               (∃ pkg, build_Import E q wd = inl pkg) →
                               q ∈ dom (Packages w'))).
    + intros HC Hres. apply Hr; done.
    + intros a q Hrtc Hedge IH HqC Hqres.
      destruct Hedge as (HaC & pkga & Ha & Hin).
      assert (Ha' : a ∈ dom (Packages w')) by (apply IH; [done|by exists pkga]).
      apply elem_of_dom in Ha' as [pkg' Ha'].
      destruct (Hn a pkg' Ha') as [Hold|(_ & Hres' & _ & Hcl)].
      { by rewrite lookup_empty in Hold. }
      assert (pkg' = pkga) as -> by congruence.
      apply Hcl; [done..|]. unfold resolves. by rewrite Hwd.
Qed.

End Closure.

End BuilderExtras.

Lemma envCycle_canonical : canonical envCycle.
Proof. intros q wd pkg Hq. by destruct (envCycle_sound q wd pkg Hq). Defined.

(** ** A second call, and import cycles *)

Section Resolution.
Variable E : Env.
Implicit Types (w : Watcher) (p q : string).

(** A call removes no entry of the registry. *)
Lemma WatchImportPath_keeps n p q w w1 :
  is_Some (Packages w !! q) →
  WatchImportPath E n p w = Some w1 →
  is_Some (Packages w1 !! q).
Proof.
  apply (WatchImportPath_preserves E (fun w => is_Some (Packages w !! q)));
    try done.
  - intros w' pkg' H. simpl. rewrite lookup_insert. by case_decide.
  - intros w' dir H. by destruct (WatchDirectory_sameRegistry E dir w') as [-> _].
Qed.

(** C3: let [p] be an import path that the registry is keyed by: [p] was
    registered already, or the resolver finds a package for [p] and
    returns it under [p] itself.  Once a first call [WatchImportPath p] has
    returned, a second call returns at once and leaves the watcher as it
    is (no resolver call, no call on the imports, no error, no notifier
    call), and the registry holds exactly one entry for [p]. *)
Theorem WatchImportPath_idempotent n m p w w1 :
  is_Some (Packages w !! p) ∨
  (p ≠ "C" ∧ ∃ pkg, build_Import E p (workingDirectory w) = inl pkg ∧
                    build.ImportPath pkg = p) →
  WatchImportPath E n p w = Some w1 →
  WatchImportPath E (S m) p w1 = Some w1 ∧
  length (filter (fun kv => fst kv = p) (map_to_list (Packages w1))) = 1.
Proof.
  intros Hkey Hrun.
  assert (Hp : is_Some (Packages w1 !! p)).
  { destruct Hkey as [Hold|(HC & pkg & Hres & Hname)].
    - by eapply WatchImportPath_keeps.
    - by eapply WatchImportPath_registers. }
  split; [|by apply registry_one_entry].
  cbn [WatchImportPath]. case_decide; [done|].
  by destruct Hp as [pkg ->].
Qed.


End Resolution.

Lemma WatchImportPath_idempotent_witness :
  ∃ w1, WatchImportPath envCycle 3 "A" watcher0 = Some w1 ∧
        WatchImportPath envCycle 1 "A" w1 = Some w1 ∧
        length (filter (fun kv => fst kv = "A") (map_to_list (Packages w1))) = 1.
Proof.
  destruct (WatchImportPath envCycle 3 "A" watcher0) as [w1|] eqn:Hrun;
    [|vm_compute in Hrun; discriminate].
  exists w1. split; [done|].
  apply (WatchImportPath_idempotent envCycle 3 0 "A" watcher0 w1); [|exact Hrun].
  right. split; [done|]. exists pkgCycleA. split; reflexivity.
Defined.

(** The second call on a local import path: the first call registered the
    package under [example.com/foo], so the registry has no entry for
    [./foo], and the second call asks the resolver again. *)
Lemma WatchImportPath_idempotent_counterexample :
  ∃ w1 w2,
    WatchImportPath envLocal 1 "./foo" watcher0 = Some w1 ∧
    Packages w1 = {[ "example.com/foo" := pkgFoo ]} ∧
    importCalls w1 = [ "./foo" ] ∧
    WatchImportPath envLocal 1 "./foo" w1 = Some w2 ∧
    w2 ≠ w1 ∧
    importCalls w2 = [ "./foo"; "./foo" ] ∧
    length (filter (fun kv => fst kv = "./foo")
                   (map_to_list (Packages w2))) = 0.
Proof.
  destruct (WatchImportPath envLocal 1 "./foo" watcher0) as [w1|] eqn:H1;
    [|vm_compute in H1; discriminate].
  destruct (WatchImportPath envLocal 1 "./foo" w1) as [w2|] eqn:H2;
    [|vm_compute in H1; injection H1 as <-; vm_compute in H2; discriminate].
  exists w1, w2.
  vm_compute in H1. injection H1 as <-.
  vm_compute in H2. injection H2 as <-.
  repeat split; try (vm_compute; reflexivity).
  intros Heq. apply (f_equal importCalls) in Heq. vm_compute in Heq.
  discriminate.
Qed.




Lemma WatchImportPath_imports_closed_witness :
  ∃ w', WatchImportPath envCycle 3 "A" watcher0 = Some w' ∧
        importsClosed envCycle w' ∧ "A" ∈ dom (Packages w').
Proof.
  destruct (WatchImportPath envCycle 3 "A" watcher0) as [w'|] eqn:Hrun;
    [|vm_compute in Hrun; discriminate].
  exists w'. split; [done|].
  destruct (WatchImportPath_imports_closed envCycle envCycle_canonical
              3 "A" watcher0 w') as (_ & Hcl & HA); [| |exact Hrun|].
  - intros q pkg Hq. unfold watcher0, initial in Hq. simpl in Hq.
    by rewrite lookup_empty in Hq.
  - intros q pkg Hq. unfold watcher0, initial in Hq. simpl in Hq.
    by rewrite lookup_empty in Hq.
  - split; [exact Hcl|]. apply HA; [done|]. by exists pkgCycleA.
Defined.

Lemma watchAll_registers_reachable_witness :
  ∃ w', watchAll envCycle 3 [ "A" ] watcher0 = Some w' ∧
        ∀ q, q ∈ dom (Packages w') ↔
             ∃ p, p ∈ [ "A" ] ∧ reaches envCycle "/" p q.
Proof.
  destruct (watchAll envCycle 3 [ "A" ] watcher0) as [w'|] eqn:Hrun;
    [|vm_compute in Hrun; discriminate].
  exists w'. split; [done|].
  apply (watchAll_registers_reachable envCycle envCycle_canonical
           3 [ "A" ] "/" fsnotify.opened w' Hrun).
Defined.

(** ** Every package directory is watched *)

Lemma rewatch_extends_aux (E : Env) (pkgs : list build.Package) (w : Watcher) :
  extends w (foldl (fun acc pkg => WatchDirectory E (build.Dir pkg) acc) w pkgs).
Proof.
  revert w. induction pkgs as [|pkg pkgs IH]; intros w; [apply extends_refl|].
  simpl. eapply extends_trans; [apply WatchDirectory_extends|apply IH].
Qed.

Lemma elem_of_concat_map {A B} (f : A → list B) (l : list A) (y : B) :
  y ∈ concat (map f l) ↔ ∃ x, x ∈ l ∧ y ∈ f x.
Proof.
  induction l as [|a l IH]; simpl.
  { split; [by intros ?%elem_of_nil|by intros (x & ?%elem_of_nil & _)]. }
  rewrite elem_of_app, IH. split.
  - intros [?|(x & ? & ?)]; [exists a|exists x]; split; try done;
      apply elem_of_cons; auto.
  - intros (x & [->|?]%elem_of_cons & ?); [by left|right; by exists x].
Qed.

Lemma watchAll_registers_marks (E : Env) n ps w w' :
  watchAll E n ps w = Some w' → ∃ new, registers w w' new.
Proof.
  apply (watchAll_preserves E (fun w' => ∃ new, registers w w' new)).
  - intros w1 q [new Hr]. exists new. exact Hr.
  - intros w1 msg [new Hr]. exists new. exact Hr.
  - intros w1 pkg [new Hr]. exists new. exact Hr.
  - intros w1 dir [new Hr]. destruct (watched w1 dir) eqn:Hw.
    + exists new. unfold WatchDirectory. by rewrite Hw.
    + destruct (WatchDirectory_effect E dir w1 Hw) as (new' & Hr' & _).
      exists (new ++ new'). by eapply registers_trans.
  - exists []. by apply registers_same.
Qed.

Section PackagesWatched.
Variable E : Env.
Hypothesis fs_consistent : consistent E.
Hypothesis range_complete : rangeComplete E.
Implicit Types (w : Watcher) (t : FileTree).

Lemma visibleDirs_below t :
  ∀ path p, lstatTree E path = t → p ∈ visibleDirs path t →
            visibleDirs p (lstatTree E p) ⊆ visibleDirs path t.
Proof.
  induction t as [n e|n|n r es IH] using FileTree_ind; intros path p Ht;
    [by intros ?%elem_of_nil..|].
  cbn [visibleDirs]. destruct r as [err|]; [by intros ?%elem_of_nil|].
  destruct (hidden _) eqn:Hh; [by intros ?%elem_of_nil|].
  intros [->|Hp]%elem_of_cons.
  { rewrite Ht. cbn [visibleDirs]. by rewrite Hh. }
  apply elem_of_concat_map in Hp as (e & He & Hp).
  rewrite Forall_forall in IH.
  pose proof (fs_consistent path n es e Ht Hh He) as Hsub.
  intros q Hq. apply elem_of_cons. right.
  apply elem_of_concat_map. exists e. split; [done|].
  by apply (IH e He (filepath.Join path (entryName e)) p Hsub Hp).
Qed.

Lemma WatchDirectory_marks dir w :
  covered E w →
  covered E (WatchDirectory E dir w) ∧
  ∀ p, p ∈ visibleDirs dir (lstatTree E dir) →
       watched (WatchDirectory E dir w) p = true.
Proof.
  intros Hcov. destruct (watched w dir) eqn:Hw.
  { unfold WatchDirectory. rewrite Hw. split; [done|]. intros p. by apply Hcov. }
  destruct (WatchDirectory_effect E dir w Hw) as (new & Hreg & _ & Hnew).
  pose proof (fun p => watched_markAll new w _ p (proj2 Hreg)) as Hmark.
  assert (Hall : ∀ p, p ∈ visibleDirs dir (lstatTree E dir) →
                      watched (WatchDirectory E dir w) p = true).
  { intros p Hp. apply Hmark. destruct (watched w p) eqn:Hwp; [by left|].
    right. by apply Hnew. }
  split; [|done].
  intros d p Hd Hp. apply Hmark in Hd as [Hd|Hd].
  - apply Hmark. left. by eapply Hcov.
  - apply Hnew in Hd as [Hd _]. apply Hall.
    by apply (visibleDirs_below (lstatTree E dir) dir d eq_refl Hd).
Qed.

Lemma rewatch_marks (pkgs : list build.Package) w :
  covered E w →
  covered E (foldl (fun acc pkg => WatchDirectory E (build.Dir pkg) acc) w pkgs) ∧
  ∀ pkg p, pkg ∈ pkgs →
           p ∈ visibleDirs (build.Dir pkg) (lstatTree E (build.Dir pkg)) →
           watched (foldl (fun acc pkg => WatchDirectory E (build.Dir pkg) acc)
                          w pkgs) p = true.
Proof.
  revert w. induction pkgs as [|pkg0 pkgs IH]; intros w Hcov; simpl.
  { split; [done|]. by intros pkg p ?%elem_of_nil. }
  destruct (WatchDirectory_marks (build.Dir pkg0) w Hcov) as [Hcov1 Hm1].
  destruct (IH _ Hcov1) as [Hcov2 Hm2]. split; [done|].
  intros pkg p [->|Hin]%elem_of_cons Hp; [|by eapply Hm2].
  destruct (rewatch_extends_aux E pkgs (WatchDirectory E (build.Dir pkg0) w))
    as (new & _ & _ & _ & Hmono).
  apply Hmono. by apply Hm1.
Qed.

Lemma covered_unchanged w w' :
  watchedDirectories w' = watchedDirectories w → covered E w → covered E w'.
Proof.
  intros Hm Hcov dir p. unfold watched. rewrite Hm. apply Hcov.
Qed.

Lemma WatchImportPath_covered n p w w' :
  covered E w → WatchImportPath E n p w = Some w' → covered E w'.
Proof.
  apply (WatchImportPath_preserves E (covered E)).
  - intros w1 q. by apply covered_unchanged.
  - intros w1 msg. by apply covered_unchanged.
  - intros w1 pkg. by apply covered_unchanged.
  - intros w1 dir H1. by apply WatchDirectory_marks.
Qed.

Lemma WatchImportPath_packagesWatched n p w w' :
  covered E w → packagesWatched E w →
  WatchImportPath E n p w = Some w' →
  covered E w' ∧ packagesWatched E w'.
Proof.
  intros Hcov Hpw Hrun. split; [by eapply WatchImportPath_covered|].
  destruct n as [|n]; [done|]. cbn [WatchImportPath] in Hrun.
  case_decide; [by simplify_eq|].
  destruct (Packages w !! p); [by simplify_eq|].
  destruct (build_Import E p (workingDirectory w)) as [pkg|err]; cycle 1.
  { simplify_eq. intros q pkg d. simpl. apply Hpw. }
  destruct (foldl _ _ _) as [w2|] eqn:Hfold; simpl in Hrun; [|done].
  simplify_eq.
  assert (Hcov2 : covered E w2).
  { eapply (watchAll_preserves E (covered E)); [..|exact Hfold].
    - intros w1 q. by apply covered_unchanged.
    - intros w1 msg. by apply covered_unchanged.
    - intros w1 pkg'. by apply covered_unchanged.
    - intros w1 dir H1. by apply WatchDirectory_marks.
    - by apply (covered_unchanged w). }
  destruct (rewatch_marks (rangePackages E (Packages w2)) w2 Hcov2) as [_ Hm].
  intros q pkg' d Hq Hd.
  destruct (rewatch_sameRegistry E (rangePackages E (Packages w2)) w2)
    as (HP & _).
  rewrite HP in Hq. apply (Hm pkg'); [|done].
  by eapply range_complete.
Qed.

Lemma watchAll_packagesWatched n ps w w' :
  covered E w → packagesWatched E w →
  watchAll E n ps w = Some w' →
  covered E w' ∧ packagesWatched E w'.
Proof.
  unfold watchAll. revert w.
  induction ps as [|p ps IH]; intros w Hcov Hpw; simpl.
  { by intros [= <-]. }
  destruct (WatchImportPath E n p w) as [w1|] eqn:H1; simpl.
  - destruct (WatchImportPath_packagesWatched n p w w1 Hcov Hpw H1).
    by apply IH.
  - intros Hnone. exfalso. revert Hnone. clear.
    induction ps as [|q ps IHq]; simpl; [done|]. apply IHq.
Qed.

(** X10: on a file system that stays as it is, once the goroutine over
    the initial import paths has returned, every directory of every
    registered package that is not hidden, whose entries can be read, and
    that is not below a hidden or unreadable directory is marked as
    watched; and every marked directory was handed to the notifier.  A
    directory that cannot be read is not among those promised. *)
Theorem watchAll_packages_watched n ps wd nf w' :
  watchAll E n ps (initial wd nf) = Some w' →
  packagesWatched E w' ∧
  ∀ p, watched w' p = true → p ∈ notifierWatches w'.
Proof.
  intros Hrun. split.
  - eapply (watchAll_packagesWatched n ps (initial wd nf)); [| |exact Hrun].
    + intros dir p Hd. by vm_compute in Hd.
    + intros q pkg p Hq. simpl in Hq. by rewrite lookup_empty in Hq.
  - intros p Hp.
    destruct (watchAll_registers_marks E n ps _ _ Hrun) as (new & [Hn Hm]).
    rewrite Hn. apply elem_of_app. right.
    destruct (proj1 (watched_markAll new _ _ p Hm) Hp) as [Hold|Hin];
      [|done].
    by vm_compute in Hold.
Qed.

End PackagesWatched.

Lemma envFS_consistent : consistent envFS.
Proof.
  intros dir name entries e Ht Hh He. simpl in Ht.
  repeat case_decide; unfold treeFS in *; simplify_eq;
    try (vm_compute in Hh; discriminate);
    repeat (apply elem_of_cons in He as [->|He]);
    try (by apply elem_of_nil in He);
    vm_compute; reflexivity.
Defined.

Lemma envFS_rangeComplete : rangeComplete envFS.
Proof.
  intros m k pkg Hk. simpl. apply list_elem_of_fmap.
  exists (k, pkg). split; [done|]. by apply elem_of_map_to_list.
Defined.

Lemma watchAll_packages_watched_witness :
  ∃ w', watchAll envFS 3 [ "A" ] watcher0 = Some w' ∧
        packagesWatched envFS w' ∧
        Packages w' !! "A" = Some pkgCycleA ∧
        watched w' "/src/A/sub" = true ∧
        watched w' "/src/A/.git" = false.
Proof.
  destruct (watchAll envFS 3 [ "A" ] watcher0) as [w'|] eqn:Hrun;
    [|vm_compute in Hrun; discriminate].
  exists w'. split; [done|].
  split.
  - apply (watchAll_packages_watched envFS envFS_consistent
             envFS_rangeComplete 3 [ "A" ] "/" fsnotify.opened w' Hrun).
  - vm_compute in Hrun. injection Hrun as <-.
    repeat split; vm_compute; reflexivity.
Defined.

Lemma WatchImportPath_never_resolves_C_witness :
  ∃ w', watchAll envCycle 3 [ "C"; "A" ] watcher0 = Some w' ∧
        "C" ∉ importCalls w'.
Proof.
  destruct (watchAll envCycle 3 [ "C"; "A" ] watcher0) as [w'|] eqn:Hrun;
    [|vm_compute in Hrun; discriminate].
  exists w'. split; [done|].
  apply (WatchImportPath_never_resolves_C envCycle 3 [ "C"; "A" ] watcher0 w'
           Hrun).
  by intros ?%elem_of_nil.
Defined.

Lemma WatchImportPath_only_adds_witness :
  ∃ w', WatchImportPath envCycle 3 "A" watcher0 = Some w' ∧
        dom (Packages watcher0) ⊆ dom (Packages w') ∧
        Event_ w' = Event_ watcher0.
Proof.
  destruct (WatchImportPath envCycle 3 "A" watcher0) as [w'|] eqn:Hrun;
    [|vm_compute in Hrun; discriminate].
  exists w'. split; [done|].
  destruct (WatchImportPath_only_adds envCycle 3 "A" watcher0 w' Hrun)
    as (HP & _ & _ & _ & _ & _ & HE & _).
  by split.
Defined.

Lemma watchAll_registryInv_witness :
  ∃ w', watchAll envCycle 3 [ "A" ] watcher0 = Some w' ∧
        registryInv envCycle w'.
Proof.
  destruct (watchAll envCycle 3 [ "A" ] watcher0) as [w'|] eqn:Hrun;
    [|vm_compute in Hrun; discriminate].
  exists w'. split; [done|].
  apply (watchAll_registryInv envCycle 3 [ "A" ] "/" fsnotify.opened w' Hrun).
Defined.

(** ** The running system *)

Lemma rtc_invariant {A} (R : relation A) (I : A → Prop) :
  (∀ x y, I x → R x y → I y) → ∀ x y, I x → rtc R x y → I y.
Proof.
  intros Hstep x y Hx Hrun. induction Hrun as [|x y z Hxy _ IH]; [done|].
  apply IH. by eapply Hstep.
Qed.

Section Running.
Variable closeErr : option string.
Implicit Types (w : Watcher) (s : System).

Lemma WatchImportPath_indexedByDir E n p w w' :
  indexedByDir w → WatchImportPath E n p w = Some w' → indexedByDir w'.
Proof.
  apply (WatchImportPath_preserves E indexedByDir); try done.
  - intros w1 pkg Hw d pkg'. simpl.
    intros [[<- <-]|[_ ?]]%lookup_insert_Some; [done|by apply Hw].
  - intros w1 dir Hw d pkg.
    destruct (WatchDirectory_sameRegistry E dir w1) as (_ & -> & _).
    apply Hw.
Qed.

Lemma step_attributing s s' :
  attributing s → step closeErr s s' → attributing s'.
Proof.
  intros (Hidx & Hall & Hsend) Hstep.
  destruct Hstep; unfold attributing; simpl in *.
  - split; [done|]. split; [done|]. intros e [= <-] pkg. simpl. intros Hpkg.
    rewrite findPackage_ancestry in Hpkg.
    apply firstRegistered_elem in Hpkg as (d & Hd & Hpkg).
    by rewrite (Hidx d pkg Hpkg).
  - split; [done|]. split; [|done].
    apply Forall_app. split; [done|]. constructor; [|done]. by apply Hsend.
  - split; [by eapply WatchImportPath_indexedByDir|].
    by destruct (WatchImportPath_lifecycle _ _ _ _ _ H) as (_ & _ & ->).
  - done.
  - split; [done|]. split; [done|]. by intros.
  - done.
Qed.

(** X11: every event the proxy publishes from a new watcher carries
    either no package or a package whose directory is the event's path or
    one of its ancestors, whatever the other goroutines do in between. *)
Theorem published_events_attributed wd nf s :
  rtc (step closeErr) (started (initial wd nf)) s →
  Forall attributed (Event_ (watcher s)).
Proof.
  intros Hrun.
  assert (Hinv : attributing s); [|by destruct Hinv as (_ & ? & _)].
  eapply (rtc_invariant (step closeErr) attributing);
    [apply step_attributing| |exact Hrun].
  split; [|split]; simpl.
  - intros d pkg. simpl. by rewrite lookup_empty.
  - constructor.
  - done.
Qed.

Lemma step_closing w0 s s' :
  closing closeErr w0 s → step closeErr s s' → closing closeErr w0 s'.
Proof.
  intros (Hd & Hmade & Hret) Hstep.
  destruct Hstep; unfold closing; simpl in *.
  - done.
  - done.
  - destruct (WatchImportPath_lifecycle _ _ _ _ _ H) as (-> & -> & _). done.
  - split; [done|]. split; [by intros [?|[? ?]]|done].
  - split; [done|]. split; [intros _; congruence|done].
  - split; [done|]. split; [intros _; apply Hmade; by left|].
    by intros err [= <-].
Qed.

(** X12: whenever a call of [Close] has returned, the [done] channel was
    a made one, [proxyEvent] had returned before, the notifier is closed
    and the value returned is the notifier's; and from then on no event is
    published. *)
Theorem Close_returned w s err :
  rtc (step closeErr) (started w) s →
  closer s = Returned err →
  done w = madeChan ∧
  proxy s = ProxyReturned ∧
  fsnotify.closed (fsnotify_ (watcher s)) = true ∧
  err = closeErr ∧
  ∀ s', rtc (step closeErr) s s' →
        Event_ (watcher s') = Event_ (watcher s).
Proof.
  intros Hrun Hret.
  assert (Hinv : closing closeErr w s).
  { eapply (rtc_invariant (step closeErr) (closing closeErr w));
      [apply step_closing| |exact Hrun].
    split; [done|]. split; [by intros [?|[? ?]]|done]. }
  destruct Hinv as (_ & Hmade & Hclosed).
  destruct (Hclosed err Hret) as [-> ?].
  split; [apply Hmade; right; by eexists|].
  split.
  { apply (rtc_stopped closeErr (started w) s); [by intros [?|[? ?]]|done|].
    right. by eexists. }
  split; [done|]. split; [done|].
  intros s' Hrun'. by eapply Close_returned_no_more_events.
Qed.

End Running.

Lemma published_events_attributed_witness :
  Forall attributed
    (Event_ (publish eventX watcher0)).
Proof.
  apply (published_events_attributed None "/" fsnotify.opened
           {| watcher := publish eventX watcher0; proxy := Selecting;
              closer := NotCalled |}).
  eapply rtc_l;
    [apply (proxyEvent_receives None watcher0 NotCalled (FileEvent eventX))|].
  eapply rtc_l; [apply proxyEvent_publishes|]. apply rtc_refl.
Defined.

Lemma Close_returned_witness :
  rtc (step (Some "bad file descriptor")) (started watcherMade)
    {| watcher := closeNotifier watcherMade; proxy := ProxyReturned;
       closer := Returned (Some "bad file descriptor") |} ∧
  fsnotify.closed (fsnotify_ (closeNotifier watcherMade)) = true.
Proof.
  assert (Hrun : rtc (step (Some "bad file descriptor")) (started watcherMade)
                   {| watcher := closeNotifier watcherMade;
                      proxy := ProxyReturned;
                      closer := Returned (Some "bad file descriptor") |}).
  { eapply rtc_l; [apply Close_called|].
    eapply rtc_l; [by apply Close_signals_done|].
    eapply rtc_l; [apply Close_returns|]. apply rtc_refl. }
  split; [exact Hrun|].
  by destruct (Close_returned (Some "bad file descriptor") watcherMade _
                 (Some "bad file descriptor") Hrun eq_refl) as (_ & _ & ? & _).
Defined.

(** ** The earlier version *)

Section WalkRelated.
Context {S1 S2 : Type}.
Variable R : S1 → S2 → Prop.
Variable f1 : string → WalkArg → S1 → option WalkError * S1.
Variable f2 : string → WalkArg → S2 → option WalkError * S2.
Hypothesis f_related :
  ∀ path a s1 s2, R s1 s2 →
    fst (f1 path a s1) = fst (f2 path a s2) ∧
    R (snd (f1 path a s1)) (snd (f2 path a s2)).

Lemma walk_related t :
  ∀ path s1 s2, R s1 s2 →
    fst (walk f1 path t s1) = fst (walk f2 path t s2) ∧
    R (snd (walk f1 path t s1)) (snd (walk f2 path t s2)).
Proof.
  induction t as [n e|n|n r es IH] using FileTree_ind; intros path s1 s2 HR;
    [by apply f_related..|].
  cbn [walk]. destruct r as [err|]; [by apply f_related|].
  destruct (f_related path (Entry {| Name := n; IsDir := true |}) s1 s2 HR)
    as [Hfst HR1].
  destruct (f1 path _ s1) as [r1 t1], (f2 path _ s2) as [r2 t2].
  simpl in Hfst, HR1. subst r2. destruct r1; [done|].
  clear HR. revert t1 t2 HR1.
  induction IH as [|e es He _ IHes]; intros t1 t2 HR1; [done|].
  cbn [walkEntries].
  destruct (He (filepath.Join path (entryName e)) t1 t2 HR1) as [Hfst HR2].
  destruct (walk f1 _ e t1) as [r1 u1], (walk f2 _ e t2) as [r2 u2].
  simpl in Hfst, HR2. subst r2.
  destruct r1 as [[|msg]|]; [|done|by apply IHes].
  destruct (isFile e); [done|by apply IHes].
Qed.

Lemma Walk_related t root s1 s2 :
  R s1 s2 →
  fst (Walk f1 root t s1) = fst (Walk f2 root t s2) ∧
  R (snd (Walk f1 root t s1)) (snd (Walk f2 root t s2)).
Proof.
  intros HR. unfold Walk.
  destruct (walk_related t root s1 s2 HR) as [Hfst HR'].
  destruct (walk f1 root t s1) as [r1 u1], (walk f2 root t s2) as [r2 u2].
  simpl in Hfst, HR'. subst r2. by destruct r1 as [[|msg]|].
Qed.

End WalkRelated.

Section Legacy.
Variable E : Env.
Implicit Types (l : legacy.Watcher) (w : Watcher).

Lemma agrees_watched l w p :
  agrees l w → legacy.watched l p = watched w p.
Proof. intros (_ & _ & Hm & _). unfold legacy.watched, watched. by rewrite Hm. Qed.

Lemma visit_agrees dir path a l w :
  agrees l w →
  fst (legacy.visit E dir path a l) = fst (visit E dir path a w) ∧
  agrees (snd (legacy.visit E dir path a l)) (snd (visit E dir path a w)).
Proof.
  intros Hag. pose proof (agrees_watched l w path Hag) as Hw.
  destruct Hag as (HP & HW & HM & HF & HI & HE).
  destruct a as [info|info err]; simpl.
  - destruct (IsDir info); simpl; [|done].
    destruct (hidden info); simpl; [done|].
    rewrite Hw. destruct (watched w path); simpl; [done|].
    split; [done|].
    destruct (fsnotify_Watch E path) as [err|]; unfold agrees; simpl;
      rewrite HP, HW, HM, HF, HI; repeat split; try done.
    apply Forall2_app; [done|]. constructor; [|constructor].
    right. by exists path.
  - split; [done|]. unfold agrees. simpl. repeat split; try done.
    apply Forall2_app; [done|]. constructor; [|constructor]. by left.
Qed.

Lemma WatchDirectory_agrees dir l w :
  agrees l w →
  agrees (legacy.WatchDirectory E dir l) (WatchDirectory E dir w).
Proof.
  intros Hag. unfold legacy.WatchDirectory, WatchDirectory.
  rewrite (agrees_watched l w dir Hag).
  destruct (watched w dir); [done|].
  apply (Walk_related agrees (legacy.visit E dir) (visit E dir)); [|done].
  intros. by apply visit_agrees.
Qed.

Lemma rewatch_agrees (pkgs : list build.Package) l w :
  agrees l w →
  agrees (foldl (fun acc pkg => legacy.WatchDirectory E (build.Dir pkg) acc)
                l pkgs)
         (foldl (fun acc pkg => WatchDirectory E (build.Dir pkg) acc) w pkgs).
Proof.
  revert l w. induction pkgs as [|pkg pkgs IH]; intros l w Hag; [done|].
  simpl. apply IH. by apply WatchDirectory_agrees.
Qed.

Lemma watchAll_agrees_step n :
  (∀ p l w, agrees l w →
            option_Forall2 agrees (legacy.WatchImportPath E n p l)
                                  (WatchImportPath E n p w)) →
  ∀ ps (ol : option legacy.Watcher) (ow : option Watcher),
    option_Forall2 agrees ol ow →
    option_Forall2 agrees
      (foldl (fun acc p => acc ≫= legacy.WatchImportPath E n p) ol ps)
      (foldl (fun acc p => acc ≫= WatchImportPath E n p) ow ps).
Proof.
  intros IH ps. induction ps as [|p ps IHps]; intros ol ow Hag; [done|].
  simpl. apply IHps. destruct Hag as [l w Hag|]; simpl; [by apply IH|].
  constructor.
Qed.

Lemma WatchImportPath_agrees n :
  ∀ p l w, agrees l w →
           option_Forall2 agrees (legacy.WatchImportPath E n p l)
                                 (WatchImportPath E n p w).
Proof.
  induction n as [|n IH]; intros p l w Hag; [constructor|].
  cbn [legacy.WatchImportPath WatchImportPath].
  case_decide; [by constructor|].
  pose proof Hag as (HP & HW & HM & HF & HI & HE).
  rewrite HP, HW. destruct (Packages w !! p); [by constructor|].
  destruct (build_Import E p (workingDirectory w)) as [pkg|err].
  - assert (Hreg : agrees (legacy.register pkg (legacy.noteImport p l))
                          (register pkg (noteImport p w))).
    { unfold agrees. simpl. rewrite HP, HW, HM, HF, HI. done. }
    pose proof (watchAll_agrees_step n IH (build.Imports pkg) _ _
                  (Some_Forall2 _ _ _ Hreg)) as Hfold.
    destruct (foldl _ (Some (legacy.register _ _)) _) as [l2|];
      destruct (foldl _ (Some (register _ _)) _) as [w2|];
      inversion Hfold as [? ? H2|]; subst; simpl; constructor.
    rewrite (proj1 H2). by apply rewatch_agrees.
  - constructor. unfold agrees. simpl. rewrite HP, HW, HM, HF, HI.
    repeat split; try done.
    apply Forall2_app; [done|]. constructor; [|constructor]. by left.
Qed.

(** X13: the current version does what the earlier one did.  From
    watchers that agree (same registry by import path, same marks, same
    notifier, same resolver calls, errors the same up to the path put in
    front of a failed [Watch]), [WatchDirectory] and [WatchImportPath] of
    the two versions return together, with watchers that agree; and the
    two [NewWatcher] return watchers that agree, or the same error. *)
Theorem legacy_agrees :
  (∀ dir l w, agrees l w →
     agrees (legacy.WatchDirectory E dir l) (WatchDirectory E dir w)) ∧
  (∀ n p l w, agrees l w →
     option_Forall2 agrees (legacy.WatchImportPath E n p l)
                           (WatchImportPath E n p w)) ∧
  (∀ os ps wd,
     option_Forall2 agrees (fst (legacy.NewWatcher os ps wd))
                           (fst (NewWatcher os ps wd)) ∧
     snd (legacy.NewWatcher os ps wd) = snd (NewWatcher os ps wd)).
Proof.
  split; [apply WatchDirectory_agrees|]. split.
  { intros n. apply WatchImportPath_agrees. }
  intros os ps wd. unfold legacy.NewWatcher, NewWatcher.
  destruct (fsnotify_NewWatcher os); simpl; [|by split; [constructor|]].
  split; [|done]. constructor. repeat split. constructor.
Qed.

End Legacy.

Lemma legacy_agrees_witness :
  agrees (legacy.WatchDirectory envA "/src/a" (legacy.initial "/" fsnotify.opened))
         (WatchDirectory envA "/src/a" watcher0) ∧
  legacy.Error (legacy.WatchDirectory envA "/src/a"
                  (legacy.initial "/" fsnotify.opened))
  = [ "permission denied" ].
Proof.
  split; [|vm_compute; reflexivity].
  apply (proj1 (legacy_agrees envA)).
  repeat split. constructor.
Defined.

(** ** Relative event paths *)

Section RelativePaths.
Import filepath paths filepath_facts.
Implicit Types (w : Watcher) (cs : list string).

Lemma joinElements_not_rooted cs :
  Forall normalElement cs → isRooted (joinElements cs) = false.
Proof.
  intros Hcs. destruct Hcs as [|e cs (He & _ & _ & Hsep) _]; [done|].
  destruct e as [|a e]; [done|]. simpl in Hsep.
  apply orb_false_elim in Hsep as [Ha _].
  by destruct cs.
Qed.

Lemma Clean_relPath_sep cs :
  Forall normalElement cs → cs ≠ [] →
  Clean (joinElements cs +:+ String Separator "") = joinElements cs.
Proof.
  intros Hcs Hne. rewrite <-joinElements_snoc by done. unfold Clean.
  assert (Hroot : isRooted (joinElements (cs ++ [ "" ])) = false).
  { rewrite joinElements_snoc by done.
    pose proof (joinElements_not_rooted cs Hcs) as Hr.
    destruct (joinElements cs) eqn:Hj; [|done].
    destruct cs as [|e [|e' cs]]; [done| |].
    - simpl in Hj. subst e. by apply Forall_cons in Hcs as [(? & _) _].
    - apply Forall_cons in Hcs as [(? & _) _]. simpl in Hj.
      destruct e; [done|]. by rewrite append_cons in Hj. }
  rewrite Hroot, elements_join; cycle 1.
  { apply Forall_app; split; [by apply normal_no_separator|].
    by repeat constructor. }
  { by destruct cs. }
  rewrite foldl_app. cbn [foldl].
  rewrite cleanStep_empty, foldl_cleanStep_normal, app_nil_r, rev_involutive
    by done.
  by destruct cs.
Qed.

Lemma Dir_relPath_snoc cs c :
  Forall normalElement cs → normalElement c → cs ≠ [] →
  Dir (joinElements (cs ++ [ c ])) = joinElements cs.
Proof.
  intros Hcs (_ & _ & _ & Hc) Hne. unfold Dir.
  rewrite joinElements_snoc, throughLast_app_sep by done.
  by apply Clean_relPath_sep.
Qed.

Lemma Dir_element c : normalElement c → Dir c = ".".
Proof.
  intros (_ & _ & _ & Hc). unfold Dir. by rewrite throughLast_none.
Qed.

Lemma relPath_not_boundary cs :
  Forall normalElement cs → cs ≠ [] →
  joinElements cs ≠ "." ∧ joinElements cs ≠ "/".
Proof.
  intros Hcs Hne. destruct Hcs as [|e cs (He & Hdot & _ & Hsep) _]; [done|].
  destruct cs as [|e' cs]; simpl.
  - split; [done|]. intros ->. done.
  - destruct e as [|a e]; [done|]. rewrite append_cons.
    simpl in Hsep. apply orb_false_elim in Hsep as [Ha _].
    split.
    + intros [= -> Hrest]. by destruct e.
    + intros [= -> _]. done.
Qed.

Lemma relPrefixes_snoc cs c :
  relPrefixes (cs ++ [ c ]) = joinElements (cs ++ [ c ]) :: relPrefixes cs.
Proof.
  unfold relPrefixes. rewrite length_app. simpl length.
  rewrite Nat.add_1_r, seq_S, rev_unit. cbn [fmap list_fmap]. f_equal.
  - by rewrite take_ge by (rewrite length_app; simpl; lia).
  - apply list_fmap_ext. intros i k Hk.
    assert (k ∈ rev (seq 1 (length cs))) as Hin
      by (eapply list_elem_of_lookup_2; done).
    apply list_elem_of_In in Hin. rewrite <-in_rev, in_seq in Hin.
    cbn beta. by rewrite take_app_le by lia.
Qed.

Lemma ancestryLoop_relPath cs :
  Forall normalElement cs → cs ≠ [] →
  ∀ n, length cs ≤ n → ancestryLoop n (joinElements cs) = relPrefixes cs.
Proof.
  induction cs as [|c cs IH] using rev_ind; [done|].
  intros [Hcs [Hc _]%Forall_cons]%Forall_app _ n Hn.
  rewrite length_app in Hn. simpl in Hn.
  destruct n as [|n]; [lia|]. cbn [ancestryLoop].
  destruct (relPath_not_boundary (cs ++ [ c ])) as [? ?].
  { apply Forall_app. split; [done|]. by constructor. }
  { by destruct cs. }
  rewrite decide_True, relPrefixes_snoc by done. f_equal.
  destruct (decide (cs = [])) as [->|Hne].
  - simpl. rewrite Dir_element by done. by destruct n.
  - rewrite Dir_relPath_snoc by done. apply IH; [done..|lia].
Qed.

(** X14: for a clean relative path [c1/.../cn] the candidates of
    [findPackage] are [c1/.../cn], [c1/.../c(n-1)], ..., [c1], and never
    the current directory; the result is the package of the longest
    registered prefix, and no package when no prefix is registered. *)
Theorem findPackage_relative_path w cs :
  Forall normalElement cs → cs ≠ [] →
  ancestry (joinElements cs) = relPrefixes cs ∧
  match findPackage w (joinElements cs) with
  | Some pkg =>
      ∃ k, 0 < k ≤ length cs ∧
           DirPackages w !! joinElements (take k cs) = Some pkg ∧
           ∀ j, k < j ≤ length cs →
                DirPackages w !! joinElements (take j cs) = None
  | None =>
      ∀ k, 0 < k ≤ length cs →
           DirPackages w !! joinElements (take k cs) = None
  end.
Proof.
  intros Hcs Hne.
  assert (Hanc : ancestry (joinElements cs) = relPrefixes cs).
  { apply ancestryLoop_relPath; [done..|].
    pose proof (joinElements_length cs Hne) as Hlen.
    assert (length cs ≤ span cs); [|lia].
    clear Hlen Hne. induction Hcs; simpl; lia. }
  split; [done|].
  rewrite findPackage_ancestry, Hanc.
  apply (firstRegistered_nearest (DirPackages w)
           (fun k => joinElements (take k cs))).
Qed.

End RelativePaths.

Lemma findPackage_relative_path_witness :
  ancestry "a/b/c.go" = [ "a/b/c.go"; "a/b"; "a" ] ∧
  findPackage (register pkgRel watcher0) "a/b/c.go" = Some pkgRel.
Proof.
  split; [|vm_compute; reflexivity].
  apply (findPackage_relative_path watcher0 [ "a"; "b"; "c.go" ]); [|done].
  repeat constructor; vm_compute; congruence.
Defined.

(** ** Failures are reported *)

Section Failures.
Variable E : Env.
Implicit Types (w : Watcher).

Lemma failuresReported_refl w : failuresReported E w w.
Proof.
  split; [done|]. exists [], [], []. rewrite !app_nil_r.
  repeat split; try done; by intros ? ? ?%elem_of_nil.
Qed.

Lemma failuresReported_trans w1 w2 w3 :
  failuresReported E w1 w2 → failuresReported E w2 w3 →
  failuresReported E w1 w3.
Proof.
  intros (Hwd1 & d1 & c1 & e1 & Hd1 & Hc1 & He1 & Hw1 & Hf1)
         (Hwd2 & d2 & c2 & e2 & Hd2 & Hc2 & He2 & Hw2 & Hf2).
  split; [congruence|]. exists (d1 ++ d2), (c1 ++ c2), (e1 ++ e2).
  rewrite Hd2, Hd1, Hc2, Hc1, He2, He1, <-!app_assoc.
  split; [done|]. split; [done|]. split; [done|]. split.
  - intros p err [Hp|Hp]%elem_of_app Herr; apply elem_of_app;
      [left; by eapply Hw1|right; by eapply Hw2].
  - intros q err [Hq|Hq]%elem_of_app Herr; apply elem_of_app;
      [left; by eapply Hf1|right].
    eapply Hf2; [done|]. by rewrite Hwd1.
Qed.

Lemma visit_failuresReported dir path a w :
  failuresReported E w (snd (visit E dir path a w)).
Proof.
  destruct a as [info|info err]; simpl.
  - destruct (IsDir info); simpl; [|apply failuresReported_refl].
    destruct (hidden info); simpl; [apply failuresReported_refl|].
    destruct (watched w path); simpl; [apply failuresReported_refl|].
    split; [by destruct (fsnotify_Watch E path)|].
    destruct (fsnotify_Watch E path) as [err|] eqn:Herr; simpl.
    + exists [ path ], [], [ "Error watching " +:+ path +:+ ": " +:+ err ].
      rewrite app_nil_r. repeat split; try done.
      * intros p err' ->%list_elem_of_singleton Hp.
        assert (err' = err) as -> by congruence. by left.
      * by intros ? ? ?%elem_of_nil.
    + exists [ path ], [], []. rewrite !app_nil_r. repeat split; try done.
      * intros p err' ->%list_elem_of_singleton Hp. congruence.
      * by intros ? ? ?%elem_of_nil.
  - split; [done|]. eexists [], [], _.
    split; [by rewrite app_nil_r|]. split; [by rewrite app_nil_r|].
    split; [reflexivity|]. split; by intros ? ? ?%elem_of_nil.
Qed.

Lemma WatchDirectory_failuresReported dir w :
  failuresReported E w (WatchDirectory E dir w).
Proof.
  unfold WatchDirectory. destruct (watched w dir);
    [apply failuresReported_refl|].
  apply (Walk_preserves (visit E dir) (failuresReported E w));
    [|apply failuresReported_refl].
  intros path a s Hs. eapply failuresReported_trans; [done|].
  apply visit_failuresReported.
Qed.

Lemma rewatch_failuresReported (pkgs : list build.Package) w :
  failuresReported E w
    (foldl (fun acc pkg => WatchDirectory E (build.Dir pkg) acc) w pkgs).
Proof.
  revert w. induction pkgs as [|pkg pkgs IH]; intros w;
    [apply failuresReported_refl|].
  simpl. eapply failuresReported_trans;
    [apply WatchDirectory_failuresReported|apply IH].
Qed.

Lemma watchAll_failuresReported_step n :
  (∀ p w w', WatchImportPath E n p w = Some w' → failuresReported E w w') →
  ∀ ps w w', watchAll E n ps w = Some w' → failuresReported E w w'.
Proof.
  intros IH ps. unfold watchAll.
  induction ps as [|p ps IHps]; intros w w'; simpl.
  { intros [= <-]. apply failuresReported_refl. }
  destruct (WatchImportPath E n p w) as [w1|] eqn:H1; simpl.
  - intros Hrest. eapply failuresReported_trans; eauto.
  - intros Hnone. exfalso. revert Hnone. clear.
    induction ps as [|q ps IHq]; simpl; [done|]. apply IHq.
Qed.

Lemma WatchImportPath_failuresReported n :
  ∀ p w w', WatchImportPath E n p w = Some w' → failuresReported E w w'.
Proof.
  induction n as [|n IH]; intros p w w'; [done|].
  cbn [WatchImportPath]. case_decide as HC.
  { intros [= <-]. apply failuresReported_refl. }
  destruct (Packages w !! p) as [old|] eqn:Hp.
  { intros [= <-]. apply failuresReported_refl. }
  destruct (build_Import E p (workingDirectory w)) as [pkg|err] eqn:Hres.
  - pose proof (watchAll_failuresReported_step n IH (build.Imports pkg)
                  (register pkg (noteImport p w))) as Hall.
    unfold watchAll in Hall.
    destruct (foldl _ _ _) as [w2|]; simpl; [|done].
    intros [= <-].
    eapply failuresReported_trans; [|apply rewatch_failuresReported].
    eapply failuresReported_trans; [|by apply Hall].
    split; [done|]. exists [], [ p ], []. simpl. rewrite !app_nil_r.
    repeat split; try done.
    + by intros ? ? ?%elem_of_nil.
    + intros q err' ->%list_elem_of_singleton Hq. congruence.
  - intros [= <-]. split; [done|]. eexists [], [ p ], _. simpl.
    split; [by rewrite app_nil_r|]. split; [done|].
    split; [reflexivity|]. split.
    + by intros ? ? ?%elem_of_nil.
    + intros q err' ->%list_elem_of_singleton Hq.
      assert (err' = err) as -> by congruence. by left.
Qed.

(** X15: no failure is swallowed.  Over a run of the goroutine over the
    import paths, every directory the notifier refused to watch and every
    import path the resolver failed on has its error, naming it, on the
    error channel. *)
Theorem watchAll_failures_reported n ps w w' :
  watchAll E n ps w = Some w' → failuresReported E w w'.
Proof. apply watchAll_failuresReported_step, WatchImportPath_failuresReported. Qed.

End Failures.

Lemma watchAll_failures_reported_witness :
  ∃ w', watchAll envBroken 3 [ "A" ] watcher0 = Some w' ∧
        failuresReported envBroken watcher0 w' ∧
        Error w' = [ "Failed to find import path gone with error cannot find package";
                     "Error watching /src/a/locked: permission denied" ].
Proof.
  destruct (watchAll envBroken 3 [ "A" ] watcher0) as [w'|] eqn:Hrun;
    [|vm_compute in Hrun; discriminate].
  exists w'. split; [done|]. split.
  - apply (watchAll_failures_reported envBroken 3 [ "A" ] watcher0 w' Hrun).
  - vm_compute in Hrun. injection Hrun as <-. vm_compute. reflexivity.
Defined.
